(** * Region bracket simulation and seed discretisation

    A shallow embedding of [optimization_utils.py]: the [RegionBracket]
    dataclass (one 16-team region simulated round by round) and
    [clip_continuous_inputs_to_discrete_search_space].

    Python values are modelled as follows.
    - [int] is [Z]; [float] is a binary64 [PrimFloat.float].
    - A [dict] with [int] keys is an insertion-ordered association list
      ([dict_set] keeps the position of a key that is already present and
      appends a new one, as CPython does); iteration order matters in
      [simulate_round_and_update_current_state].
    - The schedule lists are mutable objects ([matchup_path.pop(0)]), so
      they live in a heap of list objects addressed by [loc]; dictionaries
      hold addresses, and [deepcopy] allocates fresh objects.
    - Exceptions are values of [exception]; a computation that raises
      keeps the mutations it made before raising. *)

From Stdlib Require Import ZArith List Bool Lia Floats.
From stdpp Require Import base list.
Import ListNotations.
Set Warnings "-inexact-float".
Open Scope Z_scope.

(** ** Dictionaries *)

Module Py.

Definition dict (V : Type) : Type := list (Z * V).

(** [d.get(k)] *)
Fixpoint dict_get {V} (k : Z) (d : dict V) : option V :=
  match d with
  | [] => None
  | (k', v) :: d' => if Z.eqb k' k then Some v else dict_get k d'
  end.

(** [d[k] = v] *)
Fixpoint dict_set {V} (k : Z) (v : V) (d : dict V) : dict V :=
  match d with
  | [] => [(k, v)]
  | (k', v') :: d' =>
      if Z.eqb k' k then (k', v) :: d' else (k', v') :: dict_set k v d'
  end.

(** [d.keys()] *)
Definition dict_keys {V} (d : dict V) : list Z := map fst d.

(** [x in xs] for a tuple, a set or a key view of integers *)
Definition contains (x : Z) (xs : list Z) : bool := existsb (Z.eqb x) xs.

(** Truth value of the result of [d.get(k)] when the values are
    dictionaries: [None] and the empty dictionary are false. *)
Definition truthy {V} (o : option (dict V)) : bool :=
  match o with
  | Some (_ :: _) => true
  | _ => false
  end.

End Py.
Export Py.

(** ** Exceptions *)

(** The exceptions the two functions can raise, one constructor per
    raising site:
    - [MatchupProbabilityMissing a b] is the
      [ValueError("Matchup probability is missing: (a, b)")] of
      [extract_win_probability_by_seed];
    - [BinomialProbabilityInvalid] is the [ValueError] of
      [np.random.binomial] for [p < 0], [p > 1] or a NaN;
    - [ArgminOfEmptySequence] is the [ValueError] of [np.argmin] on an
      empty array;
    - [PopFromEmptyList] is the [IndexError] of [list.pop];
    - [CurrentOpponentUnbound] is the [UnboundLocalError] of reading
      [current_opponent] before any assignment;
    - [KeyError k] is raised by [points_by_seed[k] += k] for a missing key;
    - [IndexOutOfBounds] is the [IndexError] of indexing an array. *)
Inductive exception : Type :=
| MatchupProbabilityMissing (current_seed matchup_opponent : Z)
| BinomialProbabilityInvalid
| ArgminOfEmptySequence
| PopFromEmptyList
| CurrentOpponentUnbound
| KeyError (key : Z)
| IndexOutOfBounds.

(** ** Schedules *)

(** An element of a seed path: an [int] (round 1) or a [tuple] of ints. *)
Inductive descriptor : Type :=
| Single (opponent : Z)
| Candidates (possible_opponents : list Z).

Definition loc : Type := nat.
Definition heap_t : Type := list (list descriptor).

(** [SEED_PATH_DICTIONARY], as a dictionary of list values. *)
Definition SEED_PATH_DICTIONARY : dict (list descriptor) :=
  [ (1, [Single 16; Candidates [8; 9]; Candidates [4; 5; 12; 13];
         Candidates [2; 3; 6; 7; 10; 11; 14; 15]]);
    (2, [Single 15; Candidates [7; 10]; Candidates [3; 6; 11; 14];
         Candidates [1; 4; 5; 8; 9; 12; 13; 16]]);
    (3, [Single 14; Candidates [6; 11]; Candidates [2; 7; 10; 15];
         Candidates [1; 4; 5; 8; 9; 12; 13; 16]]);
    (4, [Single 13; Candidates [5; 12]; Candidates [1; 8; 9; 16];
         Candidates [2; 3; 6; 7; 10; 11; 14; 15]]);
    (5, [Single 12; Candidates [4; 13]; Candidates [1; 8; 9; 16];
         Candidates [2; 3; 6; 7; 10; 11; 14; 15]]);
    (6, [Single 11; Candidates [3; 14]; Candidates [2; 7; 10; 15];
         Candidates [1; 4; 5; 8; 9; 12; 13; 16]]);
    (7, [Single 10; Candidates [2; 15]; Candidates [3; 6; 11; 14];
         Candidates [1; 4; 5; 8; 9; 12; 13; 16]]);
    (8, [Single 9; Candidates [1; 16]; Candidates [4; 5; 12; 13];
         Candidates [2; 3; 6; 7; 10; 11; 14; 15]]) ].

(** [SINGLE_REGION_SEARCH_SPACE = list(np.arange(1, 17))] *)
Definition SINGLE_REGION_SEARCH_SPACE : list Z := map Z.of_nat (seq 1 16).

(** ** Probability lookup *)

Definition table : Type := dict (dict float).

(** [RegionBracket.extract_win_probability_by_seed].  The second lookup
    runs when [not seed_win_prob_dict or matchup_probability is None];
    [matchup_probability] is only assigned when the first dictionary is
    truthy, so it is [None] here in both cases. *)
Definition extract_win_probability_by_seed
    (win_probability_dictionary : table) (current_seed matchup_opponent : Z)
  : exception + float :=
  let missing := MatchupProbabilityMissing current_seed matchup_opponent in
  let seed_win_prob_dict := dict_get current_seed win_probability_dictionary in
  let matchup_probability :=
    if truthy seed_win_prob_dict
    then match seed_win_prob_dict with
         | Some d => dict_get matchup_opponent d
         | None => None
         end
    else None in
  match matchup_probability with
  | Some p => inr p
  | None =>
      let seed_win_prob_dict :=
        dict_get matchup_opponent win_probability_dictionary in
      if negb (truthy seed_win_prob_dict) then inl missing
      else match seed_win_prob_dict with
           | Some d =>
               match dict_get current_seed d with
               | None => inl missing
               | Some p => inr (1 - p)%float
               end
           | None => inl missing
           end
  end.

(** The entry [table[a][b]], if the table has one. *)
Definition entry (t : table) (a b : Z) : option float :=
  match dict_get a t with
  | Some d => dict_get b d
  | None => None
  end.

(** ** The random source

    [np.random.binomial(n=1, p=...)] draws from NumPy's global generator.
    The generator is a state machine of unknown state type: given [p] and
    its state it yields an outcome and its next state. *)
Record sampler : Type := {
  rng_state : Type;
  binomial : float -> rng_state -> bool * rng_state
}.

(** ** Program state *)

(** The fields of a [RegionBracket] instance.  [seed_path_dictionary] is
    the caller's dictionary itself; its values are addresses of the
    caller's list objects. *)
Record RegionBracket : Type := {
  seed_path_dictionary : dict loc;
  win_probability_dictionary : table;
  points_by_seed : dict Z;
  current_matchup_state : dict loc
}.

(** One resolved matchup: the primary seed, its opponent and the winner. *)
Record matchup : Type := {
  m_seed : Z;
  m_opponent : Z;
  m_winner : Z
}.

Section Simulation.

Context {R : sampler}.

(** [heap] holds the list objects, [rng] the generator, [self] the
    instance.  [resolved] is ghost state: the matchups resolved so far,
    most recent first; the program never reads it. *)
Record state : Type := {
  heap : heap_t;
  rng : rng_state R;
  self : RegionBracket;
  resolved : list matchup
}.

Definition with_heap (h : heap_t) (s : state) : state :=
  {| heap := h; rng := rng s; self := self s; resolved := resolved s |}.
Definition with_rng (g : rng_state R) (s : state) : state :=
  {| heap := heap s; rng := g; self := self s; resolved := resolved s |}.
Definition with_self (b : RegionBracket) (s : state) : state :=
  {| heap := heap s; rng := rng s; self := b; resolved := resolved s |}.
Definition with_resolved (l : list matchup) (s : state) : state :=
  {| heap := heap s; rng := rng s; self := self s; resolved := l |}.

Definition with_points (p : dict Z) (b : RegionBracket) : RegionBracket :=
  {| seed_path_dictionary := seed_path_dictionary b;
     win_probability_dictionary := win_probability_dictionary b;
     points_by_seed := p;
     current_matchup_state := current_matchup_state b |}.
Definition with_matchup_state (m : dict loc) (b : RegionBracket)
  : RegionBracket :=
  {| seed_path_dictionary := seed_path_dictionary b;
     win_probability_dictionary := win_probability_dictionary b;
     points_by_seed := points_by_seed b;
     current_matchup_state := m |}.

(** State and exception monad: the state survives a raise. *)
Definition M (A : Type) : Type := state -> (exception + A) * state.

Definition ret {A} (a : A) : M A := fun s => (inr a, s).
Definition raise {A} (e : exception) : M A := fun s => (inl e, s).
Definition bind {A B} (c : M A) (k : A -> M B) : M B :=
  fun s =>
    match c s with
    | (inr a, s') => k a s'
    | (inl e, s') => (inl e, s')
    end.
Definition lift {A} (r : exception + A) : M A := fun s => (r, s).

Notation "'do' x <- c ;; k" := (bind c (fun x => k))
  (at level 10, x name, c at level 99, k at level 200).
Notation "'run' c ;; k" := (bind c (fun _ => k))
  (at level 10, c at level 99, k at level 200).

(** [matchup_path.pop(0)] on the list object at [l].  Every address the
    program holds is allocated; an unallocated one reads as an empty list. *)
Definition pop0 (l : loc) : M descriptor :=
  fun s =>
    match heap s !! l with
    | Some (x :: xs) => (inr x, with_heap (<[l := xs]> (heap s)) s)
    | _ => (inl PopFromEmptyList, s)
    end.

(** [np.random.binomial(n=1, p=p)] *)
Definition np_random_binomial (p : float) : M bool :=
  fun s =>
    if ((0 <=? p) && (p <=? 1))%float
    then let (outcome, g) := binomial R p (rng s) in (inr outcome, with_rng g s)
    else (inl BinomialProbabilityInvalid, s).

(** [self.points_by_seed[winning_seed] += winning_seed] *)
Definition add_points (winning_seed : Z) : M unit :=
  fun s =>
    match dict_get winning_seed (points_by_seed (self s)) with
    | None => (inl (KeyError winning_seed), s)
    | Some v =>
        (inr tt,
         with_self
           (with_points (dict_set winning_seed (v + winning_seed)
                           (points_by_seed (self s))) (self s)) s)
    end.

(** Ghost: record a resolved matchup. *)
Definition record_matchup (m : matchup) : M unit :=
  fun s => (inr tt, with_resolved (m :: resolved s) s).

(** The local variables of [simulate_round_and_update_current_state] that
    live across iterations.  [current_opponent] is function-scoped in
    Python: it keeps the value of an earlier iteration. *)
Record locals : Type := {
  updated_matchup_state : dict loc;
  visited : list Z;
  current_opponent : option Z
}.

(** The tuple branch: the first possible opponent that is a key of the
    current state becomes the opponent and is marked visited; when none
    is, nothing is assigned. *)
Definition choose_opponent (keys : list Z) (next_opponent : descriptor)
    (v : locals) : locals :=
  match next_opponent with
  | Candidates possible_opponents =>
      match find (fun possible_opponent => contains possible_opponent keys)
                 possible_opponents with
      | Some o =>
          {| updated_matchup_state := updated_matchup_state v;
             visited := o :: visited v;
             current_opponent := Some o |}
      | None => v
      end
  | Single o =>
      {| updated_matchup_state := updated_matchup_state v;
         visited := visited v;
         current_opponent := Some o |}
  end.

Definition read_current_opponent (v : locals) : M Z :=
  match current_opponent v with
  | Some o => ret o
  | None => raise CurrentOpponentUnbound
  end.

(** One iteration of the loop over [self.current_matchup_state.items()]. *)
Definition loop_body (seed : Z) (matchup_path : loc) (v : locals) : M locals :=
  if contains seed (visited v) then ret v
  else
    do next_opponent <- pop0 matchup_path ;;
    (fun s =>
       let keys := dict_keys (current_matchup_state (self s)) in
       let v := choose_opponent keys next_opponent v in
       (do opponent <- read_current_opponent v ;;
        do win_probability <-
          lift (extract_win_probability_by_seed
                  (win_probability_dictionary (self s)) seed opponent) ;;
        do game_outcome <- np_random_binomial win_probability ;;
        let winning_seed := if game_outcome : bool then seed else opponent in
        run add_points winning_seed ;;
        run record_matchup {| m_seed := seed; m_opponent := opponent;
                              m_winner := winning_seed |} ;;
        ret {| updated_matchup_state :=
                 dict_set winning_seed matchup_path (updated_matchup_state v);
               visited := visited v;
               current_opponent := current_opponent v |}) s).

Fixpoint for_items (items : dict loc) (v : locals) : M locals :=
  match items with
  | [] => ret v
  | (seed, matchup_path) :: rest =>
      do v' <- loop_body seed matchup_path v ;;
      for_items rest v'
  end.

Definition initial_locals : locals :=
  {| updated_matchup_state := []; visited := []; current_opponent := None |}.

(** [RegionBracket.simulate_round_and_update_current_state] *)
Definition simulate_round_and_update_current_state : M unit :=
  fun s =>
    (do v <- for_items (current_matchup_state (self s)) initial_locals ;;
     fun s' =>
       (inr tt,
        with_self
          (with_matchup_state (updated_matchup_state v) (self s')) s')) s.

(** [for _ in range(n): self.simulate_round_and_update_current_state()] *)
Fixpoint simulate_rounds (n : nat) : M unit :=
  match n with
  | O => ret tt
  | S n' => run simulate_round_and_update_current_state ;; simulate_rounds n'
  end.

(** [RegionBracket.simulate_region_tournament] *)
Definition simulate_region_tournament : M unit := simulate_rounds 4.

(** [deepcopy] of a dictionary of lists.  [memo] maps an object already
    copied to its copy, so lists shared in the original are shared in the
    copy.  The elements (ints and tuples of ints) are immutable and are
    not duplicated. *)
Fixpoint deepcopy_items (items : dict loc) (memo : list (loc * loc))
    (h : heap_t) (y : dict loc) : dict loc * heap_t :=
  match items with
  | [] => (y, h)
  | (key, l) :: rest =>
      match find (fun p => Nat.eqb (fst p) l) memo with
      | Some (_, l') => deepcopy_items rest memo h (dict_set key l' y)
      | None =>
          let l' := length h in
          deepcopy_items rest ((l, l') :: memo)
            (h ++ [default [] (h !! l)]) (dict_set key l' y)
      end
  end.

Definition deepcopy (d : dict loc) (h : heap_t) : dict loc * heap_t :=
  deepcopy_items d [] h [].

(** [RegionBracket.__post_init__] *)
Definition post_init : M unit :=
  fun s =>
    let points := map (fun n => (Z.of_nat n + 1, 0)) (seq 0 16) in
    let (copy, h) := deepcopy (seed_path_dictionary (self s)) (heap s) in
    (inr tt,
     with_heap h
       (with_self
          {| seed_path_dictionary := seed_path_dictionary (self s);
             win_probability_dictionary := win_probability_dictionary (self s);
             points_by_seed := points;
             current_matchup_state := copy |} s)).

(** [RegionBracket(seed_path_dictionary, win_probability_dictionary)]
    evaluated with heap [h] and generator state [g]. *)
Definition new_RegionBracket (seed_path_dictionary : dict loc)
    (win_probability_dictionary : table) (h : heap_t) (g : rng_state R)
  : state :=
  snd (post_init
         {| heap := h; rng := g;
            self := {| seed_path_dictionary := seed_path_dictionary;
                       win_probability_dictionary := win_probability_dictionary;
                       points_by_seed := [];
                       current_matchup_state := [] |};
            resolved := [] |}).

End Simulation.

Arguments state : clear implicits.
Arguments M : clear implicits.

(** The module-level [SEED_PATH_DICTIONARY] once the module is loaded:
    its eight lists are the objects at addresses 0 to 7. *)
Definition module_heap : heap_t := map snd SEED_PATH_DICTIONARY.
Definition module_seed_paths : dict loc :=
  combine (map fst SEED_PATH_DICTIONARY) (seq 0 8).

(** A fresh instance over the module's schedule. *)
Definition fresh_region {R : sampler} (t : table) (g : rng_state R) : state R :=
  new_RegionBracket module_seed_paths t module_heap g.

(** ** Discretiser *)

(** The values of an [int64] array element: [np.array] of a list of
    Python ints gives an [int64] array when every int is in this range. *)
Definition int64 (z : Z) : Prop := - 2 ^ 63 <= z < 2 ^ 63.

(** Conversion of an integer array element to [float64] in
    [search_space_arr - value]: the binary64 value nearest to [z], ties
    to even, for every [z] (from -2^63, which gives -9223372036854775808.0,
    to 2^63 - 1 and beyond). *)
Definition float_of_int (z : Z) : float :=
  SF2Prim (binary_normalize prec emax z 0 false).

(** The scan of [np.argmin] over [float64] after its first element:
    [mp] is the running minimum found at [min_ind], [i] the index of the
    head of [ip].  An element replaces the minimum when [x >= mp] is
    false; a NaN is minimal and ends the scan. *)
Fixpoint argmin_scan (mp : float) (min_ind i : nat) (ip : list float) : nat :=
  match ip with
  | [] => min_ind
  | x :: rest =>
      if (mp <=? x)%float then argmin_scan mp min_ind (S i) rest
      else if is_nan x then i
      else argmin_scan x i (S i) rest
  end.

(** [np.argmin(a)]: index of the first occurrence of the minimum. *)
Definition np_argmin (a : list float) : exception + nat :=
  match a with
  | [] => inl ArgminOfEmptySequence
  | mp :: rest => if is_nan mp then inr O else inr (argmin_scan mp 0 1 rest)
  end.

(** One element of [abs(search_space_arr - value)]. *)
Definition distance (c : Z) (value : float) : float :=
  abs (float_of_int c - value)%float.

(** [abs(search_space_arr - value)] *)
Definition distances (search_space_arr : list Z) (value : float) : list float :=
  map (fun c => distance c value) search_space_arr.

(** The loop of [clip_continuous_inputs_to_discrete_search_space]. *)
Fixpoint clip_loop (continuous_input_arr : list float) (replace : bool)
    (search_space_arr : list Z) (output_values : list Z)
  : exception + list Z :=
  match continuous_input_arr with
  | [] => inr output_values
  | value :: rest =>
      match np_argmin (distances search_space_arr value) with
      | inl e => inl e
      | inr nearest_neighbor_idx =>
          match search_space_arr !! nearest_neighbor_idx with
          | None => inl IndexOutOfBounds
          | Some c =>
              clip_loop rest replace
                (if replace then search_space_arr
                 else delete nearest_neighbor_idx search_space_arr)
                (output_values ++ [c])
          end
      end
  end.

(** [clip_continuous_inputs_to_discrete_search_space] *)
Definition clip_continuous_inputs_to_discrete_search_space
    (continuous_input_arr : list float)
    (discrete_search_space : option (list Z)) (replace : bool)
  : exception + list Z :=
  let discrete_search_space :=
    match discrete_search_space with
    | None => SINGLE_REGION_SEARCH_SPACE
    | Some l => l
    end in
  clip_loop continuous_input_arr replace discrete_search_space [].

(** * Vocabulary of the properties *)

(** ** One resolved matchup *)

(** The state after a matchup of [seed] is resolved: the schedule at
    [matchup_path] lost its head, the generator advanced, the winner
    scored and the matchup is on record. *)
Definition resolved_state {R : sampler} (s : state R) (matchup_path : loc)
    (rest : list descriptor) (g : rng_state R) (m : matchup) (old : Z)
  : state R :=
  {| heap := <[matchup_path := rest]> (heap s);
     rng := g;
     self := with_points
               (dict_set (m_winner m) (old + m_winner m)
                  (points_by_seed (self s))) (self s);
     resolved := m :: resolved s |}.

(** The locals after it: the winner is mapped to [matchup_path] in the
    next-round matchup state. *)
Definition resolved_locals (v : locals) (matchup_path : loc) (winner : Z)
  : locals :=
  {| updated_matchup_state :=
       dict_set winner matchup_path (updated_matchup_state v);
     visited := visited v;
     current_opponent := current_opponent v |}.

(** The probabilities [np.random.binomial] accepts. *)
Definition valid_probability (p : float) : bool :=
  ((0 <=? p) && (p <=? 1))%float.

(** ** Generators and tables of the examples *)

(** A generator that lets the favourite of the lookup win: the outcome
    is 1 exactly when [p >= 0.5]; its state counts the draws. *)
Definition threshold_sampler : sampler :=
  {| rng_state := nat;
     binomial := fun p g => ((0.5 <=? p)%float, S g) |}.

(** A generator whose outcomes alternate, whatever [p] is. *)
Definition alternating_sampler : sampler :=
  {| rng_state := nat;
     binomial := fun p g => (Nat.even g, S g) |}.

(** The table with entry [a -> b] of value [p] for every [a < b]. *)
Definition upper_table (p : float) : table :=
  map (fun a => (Z.of_nat a,
                 map (fun b => (Z.of_nat b, p)) (seq (S a) (16 - a))))
      (seq 1 15).

(** ** Invariants of a run *)

(** The seeds of a region. *)
Definition all_seeds : list Z :=
  [1; 2; 3; 4; 5; 6; 7; 8; 9; 10; 11; 12; 13; 14; 15; 16].

(** From [s] to [s'] the keys of [points_by_seed] stay the sixteen seeds
    and no total decreases. *)
Definition points_grow {R : sampler} (s s' : state R) : Prop :=
  dict_keys (points_by_seed (self s)) = all_seeds ->
  dict_keys (points_by_seed (self s')) = all_seeds /\
  forall k a, dict_get k (points_by_seed (self s)) = Some a ->
    exists b, dict_get k (points_by_seed (self s')) = Some b /\ a <= b.

(** From [s] to [s'] the instance keeps its two input dictionaries and
    the list objects below address [n0] keep their contents. *)
Definition frame {R : sampler} (n0 : nat) (s s' : state R) : Prop :=
  seed_path_dictionary (self s') = seed_path_dictionary (self s) /\
  win_probability_dictionary (self s') = win_probability_dictionary (self s) /\
  forall l, (l < n0)%nat -> heap s' !! l = heap s !! l.

(** A dictionary that only holds addresses at or above [n0]. *)
Definition copies (n0 : nat) (d : dict loc) : Prop :=
  Forall (fun kv => (n0 <= snd kv)%nat) d.

(** What the caller can observe of its inputs in a state [s']: the
    instance refers to the same two dictionaries, every list object that
    existed before construction (heap [h]) has the contents it had, and
    the current matchup state only holds addresses allocated since. *)
Definition inputs_untouched {R : sampler} (spd : dict loc) (t : table)
    (h : heap_t) (s' : state R) : Prop :=
  seed_path_dictionary (self s') = spd /\
  win_probability_dictionary (self s') = t /\
  (forall l x, h !! l = Some x -> heap s' !! l = Some x) /\
  Forall (fun kv => (length h <= snd kv)%nat) (current_matchup_state (self s')).

(** ** The order on floats and [np.argmin]

    Apart from NaN, which compares false with everything, binary64
    values are ordered by a lexicographic key on their specification. *)

Definition float_key (f : spec_float) : Z * Z * Z :=
  match f with
  | S754_nan => (0, 0, 0)
  | S754_zero _ => (0, 0, 0)
  | S754_infinity true => (-2, 0, 0)
  | S754_infinity false => (2, 0, 0)
  | S754_finite true m e => (-1, - e, - Zpos m)
  | S754_finite false m e => (1, e, Zpos m)
  end.

Definition lex_lt (a b : Z * Z * Z) : Prop :=
  fst (fst a) < fst (fst b) \/
  (fst (fst a) = fst (fst b) /\
   (snd (fst a) < snd (fst b) \/
    (snd (fst a) = snd (fst b) /\ snd a < snd b))).

Definition lex_le (a b : Z * Z * Z) : Prop := lex_lt a b \/ a = b.

Definition is_number (f : spec_float) : Prop := f <> S754_nan.

(** [k] is the index of the first minimum of [a]: no element is strictly
    below [a[k]], and no earlier element is at or below it. *)
Definition first_minimum (a : list float) (k : nat) : Prop :=
  exists m,
    a !! k = Some m /\
    (forall j x, a !! j = Some x -> (x <? m)%float = false) /\
    (forall j x, (j < k)%nat -> a !! j = Some x -> (x <=? m)%float = false).

(** ** Discretiser *)

(** The candidates of [space] not among [chosen], in the order of
    [space]: the working copy in the words of the specification. *)
Definition remaining (space chosen : list Z) : list Z :=
  List.filter (fun c => negb (contains c chosen)) space.

(** [c] is the nearest candidate of the working copy [W] to [value] in
    the distance the code computes, the binary64 number
    [abs(float64(c) - value)], and the earliest one on ties: no candidate
    of [W] has a strictly smaller computed distance, and no candidate
    before [c] has one as small.  Two candidates whose exact distances
    differ are tied when these round to the same binary64 number. *)
Definition nearest_first (W : list Z) (value : float) (c : Z) : Prop :=
  exists k,
    W !! k = Some c /\
    (forall c', In c' W ->
       (distance c' value <? distance c value)%float = false) /\
    (forall j c', (j < k)%nat -> W !! j = Some c' ->
       (distance c' value <=? distance c value)%float = false).

(** *** The words of the specification

    The specification selects the candidate minimizing the absolute
    distance to the value, the earliest in the working copy on ties.
    The two definitions below follow these words, with the exact value
    of the input and exact integer arithmetic; they are not taken from
    the code and serve to compare it with the specification. *)

(** The exact absolute distance between the integer [c] and a finite
    [value] = n * 2^e (n the signed mantissa): the integer [|c - n * 2^e|]
    when [e >= 0], and [|c - n * 2^e| * 2^(-e)] when [e < 0].  For one
    value the factor is the same for every candidate, so comparing these
    integers compares the distances. *)
Definition exact_distance (c : Z) (value : float) : option Z :=
  match Prim2SF value with
  | S754_zero _ => Some (Z.abs c)
  | S754_finite s m e =>
      let n := if s then Z.neg m else Z.pos m in
      Some (if 0 <=? e then Z.abs (c - n * 2 ^ e)
            else Z.abs (c * 2 ^ (- e) - n))
  | _ => None
  end.

(** [c] minimizes the absolute distance to [value] among the candidates
    of [W], and is the earliest of those that do. *)
Definition spec_nearest_first (W : list Z) (value : float) (c : Z) : Prop :=
  exists k d,
    W !! k = Some c /\
    exact_distance c value = Some d /\
    (forall c' d', In c' W -> exact_distance c' value = Some d' -> d <= d') /\
    (forall j c' d', (j < k)%nat -> W !! j = Some c' ->
       exact_distance c' value = Some d' -> d < d').

(** ** Exploring every sequence of outcomes

    Apart from the generator and the table, a run only works on the
    [store]: the heap, the schedule and points dictionaries, the current
    matchup state and the record of matchups.  Which matchups a round
    plays, and what it does to the store, depends on the table and the
    generator only through the outcome of each matchup.  So the runs of
    any instance can be read off the runs of one instance whose generator
    replays given outcomes, and a property of the store that holds for
    both outcomes of every matchup holds for every table and generator. *)

Definition store : Type :=
  heap_t * dict loc * dict Z * dict loc * list matchup.

Definition store_of {R : sampler} (s : state R) : store :=
  (heap s, seed_path_dictionary (self s), points_by_seed (self s),
   current_matchup_state (self s), resolved s).

(** The generator that replays a list of outcomes. *)
Definition oracle : sampler :=
  {| rng_state := list bool;
     binomial := fun _ outcomes => (hd false outcomes, tl outcomes) |}.

(** The table with an entry of 0.5 for every ordered pair of seeds. *)
Definition full_table : table :=
  map (fun a => (a, map (fun b => (b, 0.5%float)) all_seeds)) all_seeds.

(** A matchup between two different seeds of the region. *)
Definition valid_matchup (m : matchup) : bool :=
  contains (m_seed m) all_seeds && contains (m_opponent m) all_seeds &&
  negb (Z.eqb (m_seed m) (m_opponent m)).

(** The matchup a state recorded last is valid. *)
Definition last_matchup_valid (s : state oracle) : bool :=
  match resolved s with
  | m :: _ => valid_matchup m
  | [] => false
  end.

(** [explore_items items v s k]: the loop over [items] from [v] and [s]
    returns under both outcomes of every matchup it plays, each matchup
    is valid, and [k] holds of every final pair of locals and state. *)
Fixpoint explore_items (items : dict loc) (v : locals) (s : state oracle)
    (k : locals -> state oracle -> bool) : bool :=
  match items with
  | [] => k v s
  | (seed, matchup_path) :: rest =>
      if contains seed (visited v) then explore_items rest v s k
      else
        forallb
          (fun outcome =>
             match loop_body seed matchup_path v
                     (with_rng (R := oracle) [outcome] s) with
             | (inr v', s') =>
                 last_matchup_valid s' && explore_items rest v' s' k
             | (inl _, _) => false
             end)
          [true; false]
  end.

(** The same for one round, [k] holding of the state the round leaves. *)
Definition explore_round (s : state oracle) (k : state oracle -> bool)
  : bool :=
  explore_items (current_matchup_state (self s)) initial_locals s
    (fun v s' =>
       k (with_self
            (with_matchup_state (updated_matchup_state v) (self s')) s')).

(** [explore_rounds check n s]: [n] rounds from [s] return under every
    sequence of outcomes, and [check] holds of the stores before and
    after each round. *)
Fixpoint explore_rounds (check : store -> store -> bool) (n : nat)
    (s : state oracle) : bool :=
  match n with
  | O => true
  | S n' =>
      explore_round s
        (fun s1 => check (store_of s) (store_of s1)
                   && explore_rounds check n' s1)
  end.

(** A table that gives every pair of different seeds a probability the
    generator accepts. *)
Definition complete_table (t : table) : Prop :=
  forall a b, In a all_seeds -> In b all_seeds -> a <> b ->
    exists p, extract_win_probability_by_seed t a b = inr p /\
              valid_probability p = true.

(** A recorded matchup whose winner is the outcome of a draw at the
    probability the table gives its two seeds. *)
Definition decided_by_draw {R : sampler} (t : table) (m : matchup) : Prop :=
  exists p g,
    extract_win_probability_by_seed t (m_seed m) (m_opponent m) = inr p /\
    valid_probability p = true /\
    m_winner m = if fst (binomial R p g) then m_seed m else m_opponent m.

(** From [s] to [s'] the table is the same and the record grew by
    matchups decided by a draw. *)
Definition log_grows {R : sampler} (s s' : state R) : Prop :=
  win_probability_dictionary (self s') = win_probability_dictionary (self s) /\
  exists new,
    resolved s' = new ++ resolved s /\
    Forall (decided_by_draw (R := R) (win_probability_dictionary (self s)))
      new.

(** ** What is checked of each round of the module's bracket *)

Definition st_heap (st : store) : heap_t := fst (fst (fst (fst st))).
Definition st_points (st : store) : dict Z := snd (fst (fst st)).
Definition st_state (st : store) : dict loc := snd (fst st).
Definition st_log (st : store) : list matchup := snd st.

(** The matchups a round recorded, in the order they were played. *)
Definition new_matchups (pre post : store) : list matchup :=
  rev (take (length (st_log post) - length (st_log pre)) (st_log post)).

(** Boolean equalities. *)
Fixpoint list_eqb {A} (eqb : A -> A -> bool) (l1 l2 : list A) : bool :=
  match l1, l2 with
  | [], [] => true
  | x :: l1', y :: l2' => eqb x y && list_eqb eqb l1' l2'
  | _, _ => false
  end.

Definition pair_eqb {A B} (eqa : A -> A -> bool) (eqb : B -> B -> bool)
    (p q : A * B) : bool :=
  eqa (fst p) (fst q) && eqb (snd p) (snd q).

Definition descriptor_eqb (d1 d2 : descriptor) : bool :=
  match d1, d2 with
  | Single a, Single b => Z.eqb a b
  | Candidates l1, Candidates l2 => list_eqb Z.eqb l1 l2
  | _, _ => false
  end.

(** [points[W] += W] for a seed that has a total. *)
Definition credit (W : Z) (points : dict Z) : dict Z :=
  match dict_get W points with
  | Some old => dict_set W (old + W) points
  | None => points
  end.

(** The same for a list of winners, in order. *)
Definition credit_all (ws : list Z) (points : dict Z) : dict Z :=
  fold_left (fun p W => credit W p) ws points.

(** Pair the first of a list with the last, the second with the one
    before last, and so on: 1 v 16, 2 v 15, ... for the sixteen seeds. *)
Definition fold_pairs (l : list Z) : list (Z * Z) :=
  let h := (length l / 2)%nat in combine (take h l) (rev (drop h l)).

(** The seeds still in the tournament, in slot order: all sixteen before
    the first round, the keys of the matchup state afterwards. *)
Definition alive_of (st : store) : list Z :=
  match st_log st with
  | [] => all_seeds
  | _ :: _ => dict_keys (st_state st)
  end.

(** Number of matchups on record after a round, from the number on
    record before it: 8, then 4, 2 and 1 more. *)
Definition count_after (n : nat) : nat :=
  match n with
  | 0 => 8
  | 8 => 12
  | 12 => 14
  | 14 => 15
  | _ => 0
  end%nat.

(** The winner of [m] is mapped, after the round, to the list object
    that the primary seed of [m] was mapped to before it, which lost its
    head; the opponent's own list object is another one. *)
Definition inherits_slotb (pre post : store) (m : matchup) : bool :=
  match dict_get (m_seed m) (st_state pre) with
  | Some l =>
      match st_heap pre !! l, st_heap post !! l,
            dict_get (m_winner m) (st_state post) with
      | Some (d :: rest), Some rest', Some l' =>
          Nat.eqb l' l && list_eqb descriptor_eqb rest' rest &&
          (Z.eqb (m_winner m) (m_seed m)
           || Z.eqb (m_winner m) (m_opponent m)) &&
          match dict_get (m_opponent m) (st_state pre) with
          | Some lo => negb (Nat.eqb lo l)
          | None => true
          end
      | _, _, _ => false
      end
  | None => false
  end.

(** The round played the pairs of [fold_pairs] over the seeds alive, in
    order; the winners occupy the slots 8, 9, ... in that order and each
    scored its seed value. *)
Definition round_check (pre post : store) : bool :=
  let new := new_matchups pre post in
  Nat.eqb (length (st_log post)) (count_after (length (st_log pre))) &&
  forallb (inherits_slotb pre post) new &&
  forallb valid_matchup new &&
  list_eqb (pair_eqb Z.eqb Z.eqb)
    (map (fun m => (m_seed m, m_opponent m)) new) (fold_pairs (alive_of pre)) &&
  list_eqb (pair_eqb Z.eqb Nat.eqb)
    (st_state post) (combine (map m_winner new) (seq 8 (length new))) &&
  list_eqb (pair_eqb Z.eqb Z.eqb)
    (st_points post) (credit_all (map m_winner new) (st_points pre)).

(** [complete_table] as a computation. *)
Definition complete_tableb (t : table) : bool :=
  forallb
    (fun a =>
       forallb
         (fun b =>
            Z.eqb a b ||
            match extract_win_probability_by_seed t a b with
            | inr p => valid_probability p
            | inl _ => false
            end) all_seeds) all_seeds.


(** ** Chained wins *)

(** The seed that wins when [a] is the primary seed and [b] its
    opponent, on a table that gives the pair probability 1.0 or 0.0. *)
Definition beats (t : table) (a b : Z) : Z :=
  match extract_win_probability_by_seed t a b with
  | inr p => if (p =? 1)%float then a else b
  | inl _ => b
  end.

(** One round of chained wins over the seeds alive, in slot order. *)
Definition chain_round (t : table) (alive : list Z) : list Z :=
  map (fun ab => beats t (fst ab) (snd ab)) (fold_pairs alive).

(** The seeds alive after [k] rounds of chained wins. *)
Definition chain_alive (t : table) (k : nat) : list Z :=
  Nat.iter k (chain_round t) all_seeds.

(** The points after [k] rounds of chained wins. *)
Fixpoint chain_points (t : table) (k : nat) : dict Z :=
  match k with
  | O => map (fun seed => (seed, 0)) all_seeds
  | S k' => credit_all (chain_alive t (S k')) (chain_points t k')
  end.

(** Every pair of different seeds has probability 1.0 or 0.0. *)
Definition deterministic_table (t : table) : Prop :=
  forall a b, In a all_seeds -> In b all_seeds -> a <> b ->
    extract_win_probability_by_seed t a b = inr 1%float \/
    extract_win_probability_by_seed t a b = inr 0%float.

(** A generator that honours the two certain cases of a Bernoulli draw. *)
Definition certain_draws (R : sampler) : Prop :=
  forall g : rng_state R,
    fst (binomial R 1%float g) = true /\ fst (binomial R 0%float g) = false.

(** Number of matchups on record after [k] rounds. *)
Definition count_at (k : nat) : nat := nth k [0; 8; 12; 14; 15]%nat 0%nat.

(** What holds of the state after [k] rounds of a run. *)
Definition chained {R : sampler} (t : table) (k : nat) (s : state R) : Prop :=
  length (resolved s) = count_at k /\
  alive_of (store_of s) = chain_alive t k /\
  points_by_seed (self s) = chain_points t k.

(** ** Wins and eliminations *)

(** The number of matchups of [log] won by seed [k]. *)
Definition wins (k : Z) (log : list matchup) : Z :=
  Z.of_nat (length (List.filter (fun m => Z.eqb (m_winner m) k) log)).

(** Every total is the seed value times the number of matchups won. *)
Definition scored {R : sampler} (s : state R) : Prop :=
  forall k a, dict_get k (points_by_seed (self s)) = Some a ->
    a = k * wins k (resolved s).

(** The seed of [m] that lost it. *)
Definition loser (m : matchup) : Z :=
  if Z.eqb (m_winner m) (m_seed m) then m_opponent m else m_seed m.

(** [k] is one of the two seeds of [m]. *)
Definition plays (k : Z) (m : matchup) : bool :=
  Z.eqb k (m_seed m) || Z.eqb k (m_opponent m).

(** A matchup between two different seeds of the region, won by one of
    the two. *)
Definition decided (m : matchup) : bool :=
  valid_matchup m && plays (m_winner m) m.

(** In a record (most recent first) no matchup involves the loser of a
    matchup played before it. *)
Fixpoint losers_stay_out (log : list matchup) : bool :=
  match log with
  | [] => true
  | m :: earlier =>
      forallb (fun m' => negb (plays (loser m') m)) earlier
      && losers_stay_out earlier
  end.

(** The number of rounds played when [n] matchups are on record. *)
Definition rounds_at (n : nat) : nat :=
  match n with
  | 8 => 1
  | 12 => 2
  | 14 => 3
  | 15 => 4
  | _ => 0
  end%nat.

(** No seed occurs twice in [l]. *)
Fixpoint nodupb (l : list Z) : bool :=
  match l with
  | [] => true
  | x :: l' => negb (contains x l') && nodupb l'
  end.

(** What is checked of the seeds that survive a round: each seed alive
    before it played exactly one matchup, the i-th against the i-th from
    the end; a seed alive after it has won one matchup per round played
    and its schedule has one element per round to come; every matchup on
    record was won by one of its two seeds, and none involves the loser
    of an earlier one; no seed has won more matchups than rounds were
    played. *)
Definition survivors_check (pre post : store) : bool :=
  let new := new_matchups pre post in
  let r := rounds_at (length (st_log post)) in
  nodupb (alive_of pre) &&
  list_eqb Z.eqb (map m_seed new ++ rev (map m_opponent new)) (alive_of pre) &&
  list_eqb Z.eqb (dict_keys (st_state post)) (map m_winner new) &&
  forallb
    (fun kv =>
       contains (fst kv) all_seeds &&
       Z.eqb (wins (fst kv) (st_log post)) (Z.of_nat r) &&
       match st_heap post !! snd kv with
       | Some path => Nat.eqb (length path + r) 4
       | None => false
       end) (st_state post) &&
  forallb decided (st_log post) &&
  losers_stay_out (st_log post) &&
  forallb (fun k => Z.leb (wins k (st_log post)) (Z.of_nat r)) all_seeds.

(** ** Errors that come from the table *)

(** [e] is what a matchup between two different seeds of the region
    raises on table [t]: the lookup finds the pair in neither direction,
    or it finds a value that [np.random.binomial] refuses. *)
Definition table_error (t : table) (e : exception) : Prop :=
  exists a b,
    In a all_seeds /\ In b all_seeds /\ a <> b /\
    ((e = MatchupProbabilityMissing a b /\
      entry t a b = None /\ entry t b a = None) \/
     (e = BinomialProbabilityInvalid /\
      exists p, extract_win_probability_by_seed t a b = inr p /\
                valid_probability p = false)).

(** * Properties *)

(** ** Dictionaries *)

Lemma dict_get_set_eq {V} (k : Z) (v : V) (d : dict V) :
  dict_get k (dict_set k v d) = Some v.
Proof.
  induction d as [|[k' v'] d IH]; simpl.
  - now rewrite Z.eqb_refl.
  - destruct (Z.eqb k' k) eqn:E; simpl; rewrite E; auto.
Qed.

Lemma dict_get_set_ne {V} (k k0 : Z) (v : V) (d : dict V) :
  k0 <> k -> dict_get k0 (dict_set k v d) = dict_get k0 d.
Proof.
  intros Hne. induction d as [|[k' v'] d IH]; simpl.
  - destruct (Z.eqb k k0) eqn:E; auto. apply Z.eqb_eq in E. congruence.
  - destruct (Z.eqb k' k) eqn:E; simpl.
    + apply Z.eqb_eq in E. subst k'.
      destruct (Z.eqb k k0) eqn:E'; auto. apply Z.eqb_eq in E'. congruence.
    + now rewrite IH.
Qed.

Lemma dict_keys_set_present {V} (k : Z) (v v0 : V) (d : dict V) :
  dict_get k d = Some v0 -> dict_keys (dict_set k v d) = dict_keys d.
Proof.
  unfold dict_keys.
  induction d as [|[k' v'] d IH]; simpl; [discriminate|].
  destruct (Z.eqb k' k) eqn:E; simpl; auto.
  intros H. now rewrite IH.
Qed.

Lemma dict_get_Some_key {V} (k : Z) (v : V) (d : dict V) :
  dict_get k d = Some v -> In k (dict_keys d).
Proof.
  induction d as [|[k' v'] d IH]; simpl; [discriminate|].
  destruct (Z.eqb k' k) eqn:E; auto.
  apply Z.eqb_eq in E. auto.
Qed.

Lemma dict_get_Some_In {V} (k : Z) (v : V) (d : dict V) :
  dict_get k d = Some v -> In (k, v) d.
Proof.
  induction d as [|[k' v'] d IH]; simpl; [discriminate|].
  destruct (Z.eqb k' k) eqn:E; auto.
  apply Z.eqb_eq in E. intros [= ->]. subst. auto.
Qed.

Lemma dict_set_In {V} (k : Z) (v : V) (d : dict V) (kv : Z * V) :
  In kv (dict_set k v d) -> kv = (k, v) \/ In kv d.
Proof.
  induction d as [|[k' v'] d IH]; simpl.
  - intros [<-|[]]. auto.
  - destruct (Z.eqb k' k) eqn:E; simpl.
    + apply Z.eqb_eq in E. subst k'. intros [<-|H]; auto.
    + intros [<-|H]; auto. destruct (IH H); auto.
Qed.

Lemma contains_true (x : Z) (xs : list Z) : contains x xs = true <-> In x xs.
Proof.
  unfold contains. rewrite existsb_exists. split.
  - intros (y & Hy & E). apply Z.eqb_eq in E. now subst.
  - intros H. exists x. split; auto. apply Z.eqb_refl.
Qed.

(** ** Probability lookup *)

Lemma truthy_get_None {V} (o : option (dict V)) (k : Z) :
  truthy o = false ->
  match o with Some d => dict_get k d | None => None end = None.
Proof. destruct o as [[|]|]; simpl; auto; discriminate. Qed.

(** The lookup in terms of the two entries: the truthiness tests only
    skip dictionaries that hold no entry at all. *)
Lemma extract_by_entries (t : table) (a b : Z) :
  extract_win_probability_by_seed t a b =
  match entry t a b with
  | Some p => inr p
  | None =>
      match entry t b a with
      | Some p => inr (1 - p)%float
      | None => inl (MatchupProbabilityMissing a b)
      end
  end.
Proof.
  unfold extract_win_probability_by_seed, entry.
  destruct (dict_get a t) as [[|x da]|]; simpl;
    destruct (dict_get b t) as [[|y db]|]; simpl; try reflexivity;
    repeat match goal with
           | |- context [match ?o with Some _ => _ | None => _ end] =>
               destruct o; simpl
           | |- context [if ?c then _ else _] => destruct c; simpl
           end; reflexivity.
Qed.

(** C2: when the pair (a, b) has an entry only in the direction a -> b,
    with value p, the lookup returns p for (a, b) and the float
    [1.0 - p] for (b, a). *)
Theorem lookup_one_direction (t : table) (a b : Z) (p : float) :
  entry t a b = Some p ->
  entry t b a = None ->
  extract_win_probability_by_seed t a b = inr p /\
  extract_win_probability_by_seed t b a = inr (1 - p)%float.
Proof.
  intros Hab Hba. rewrite !extract_by_entries, Hab, Hba. auto.
Qed.

Lemma lookup_one_direction_witness :
  extract_win_probability_by_seed [(1, [(16, 0.98%float)])] 1 16 = inr 0.98%float /\
  extract_win_probability_by_seed [(1, [(16, 0.98%float)])] 16 1
    = inr (1 - 0.98)%float.
Proof.
  apply (lookup_one_direction [(1, [(16, 0.98%float)])] 1 16 0.98%float);
    reflexivity.
Defined.

(** ** One iteration of the round loop *)

(** Unfold the monad, the primitive operations and the record updates,
    and nothing of the lookup or the generator. *)
Ltac msimpl :=
  cbv beta iota zeta delta
    [bind ret raise lift
     pop0 read_current_opponent np_random_binomial add_points record_matchup
     with_heap with_rng with_self with_resolved with_points with_matchup_state
     heap rng self resolved
     seed_path_dictionary win_probability_dictionary points_by_seed
     current_matchup_state fst snd].

Section Iteration.

Context {R : sampler}.
Implicit Types (s : state R) (v : locals).

(** A visited seed is skipped. *)
Lemma loop_body_visited seed matchup_path v s :
  contains seed (visited v) = true ->
  loop_body seed matchup_path v s = (inr v, s).
Proof. intros H. unfold loop_body. now rewrite H. Qed.

(** The iteration of an unvisited seed, one step at a time. *)
Lemma loop_body_unfold seed matchup_path v s :
  contains seed (visited v) = false ->
  loop_body seed matchup_path v s =
  match heap s !! matchup_path with
  | Some (d :: rest) =>
      let v1 := choose_opponent (dict_keys (current_matchup_state (self s))) d v in
      let s1 := with_heap (<[matchup_path := rest]> (heap s)) s in
      match current_opponent v1 with
      | None => (inl CurrentOpponentUnbound, s1)
      | Some o =>
          match extract_win_probability_by_seed
                  (win_probability_dictionary (self s)) seed o with
          | inl e => (inl e, s1)
          | inr p =>
              if valid_probability p
              then
                let W := if fst (binomial R p (rng s)) then seed else o in
                let s2 := with_rng (snd (binomial R p (rng s))) s1 in
                match dict_get W (points_by_seed (self s)) with
                | None => (inl (KeyError W), s2)
                | Some old =>
                    (inr (resolved_locals v1 matchup_path W),
                     resolved_state s matchup_path rest
                       (snd (binomial R p (rng s)))
                       {| m_seed := seed; m_opponent := o; m_winner := W |} old)
                end
              else (inl BinomialProbabilityInvalid, s1)
          end
      end
  | _ => (inl PopFromEmptyList, s)
  end.
Proof.
  intros Hv. unfold loop_body. rewrite Hv.
  unfold valid_probability, resolved_state, resolved_locals. msimpl.
  destruct s as [h g0 b0 l0]. msimpl.
  destruct (h !! matchup_path) as [[|d rest]|]; try reflexivity.
  destruct (current_opponent _) as [o|]; try reflexivity.
  destruct (extract_win_probability_by_seed _ seed o) as [e|p];
    try reflexivity.
  destruct ((0 <=? p)%float && (p <=? 1)%float); try reflexivity.
  destruct (binomial R p g0) as [b g].
  destruct (dict_get _ _); reflexivity.
Qed.

(** What an iteration that resolves a matchup does. *)
Lemma loop_body_resolves seed matchup_path v s d rest o p b g old :
  contains seed (visited v) = false ->
  heap s !! matchup_path = Some (d :: rest) ->
  current_opponent
    (choose_opponent (dict_keys (current_matchup_state (self s))) d v) = Some o ->
  extract_win_probability_by_seed (win_probability_dictionary (self s)) seed o
    = inr p ->
  valid_probability p = true ->
  binomial R p (rng s) = (b, g) ->
  dict_get (if b then seed else o) (points_by_seed (self s)) = Some old ->
  loop_body seed matchup_path v s =
  (inr (resolved_locals
          (choose_opponent (dict_keys (current_matchup_state (self s))) d v)
          matchup_path (if b then seed else o)),
   resolved_state s matchup_path rest g
     {| m_seed := seed; m_opponent := o; m_winner := if b then seed else o |}
     old).
Proof.
  intros Hv Hh Ho Hp Hval Hb Hpts.
  rewrite loop_body_unfold by assumption.
  rewrite Hh. cbv zeta. rewrite Ho, Hp, Hval, Hb. cbn [fst snd].
  now rewrite Hpts.
Qed.

(** Conversely, an unvisited seed whose iteration returns resolved a
    matchup in exactly that way. *)
Lemma loop_body_returns seed matchup_path v s v' s' :
  contains seed (visited v) = false ->
  loop_body seed matchup_path v s = (inr v', s') ->
  exists d rest o p b g old,
    heap s !! matchup_path = Some (d :: rest) /\
    current_opponent
      (choose_opponent (dict_keys (current_matchup_state (self s))) d v)
      = Some o /\
    extract_win_probability_by_seed (win_probability_dictionary (self s)) seed o
      = inr p /\
    valid_probability p = true /\
    binomial R p (rng s) = (b, g) /\
    dict_get (if b then seed else o) (points_by_seed (self s)) = Some old /\
    v' = resolved_locals
           (choose_opponent (dict_keys (current_matchup_state (self s))) d v)
           matchup_path (if b then seed else o) /\
    s' = resolved_state s matchup_path rest g
           {| m_seed := seed; m_opponent := o;
              m_winner := if b then seed else o |} old.
Proof.
  intros Hv H. rewrite loop_body_unfold in H by assumption.
  destruct (heap s !! matchup_path) as [[|d rest]|] eqn:Hh; try discriminate.
  cbv zeta in H.
  destruct (current_opponent _) as [o|] eqn:Ho; try discriminate.
  destruct (extract_win_probability_by_seed _ seed o) as [e|p] eqn:Hp;
    try discriminate.
  destruct (valid_probability p) eqn:Hval; try discriminate.
  destruct (binomial R p (rng s)) as [b g] eqn:Hb. cbn [fst snd] in H.
  destruct (dict_get _ _) as [old|] eqn:Hpts; try discriminate.
  injection H as <- <-.
  exists d, rest, o, p, b, g, old. repeat split; auto.
Qed.

End Iteration.

(** ** Scoring *)

(** C7: an iteration that resolves a matchup adds the winner's own seed
    value to the winner's total and leaves every other total as it was. *)
Theorem win_adds_own_seed_value {R : sampler} (seed : Z) (matchup_path : loc)
    (v v' : locals) (s s' : state R) :
  contains seed (visited v) = false ->
  loop_body seed matchup_path v s = (inr v', s') ->
  exists o W old,
    resolved s' = {| m_seed := seed; m_opponent := o; m_winner := W |}
                    :: resolved s /\
    (W = seed \/ W = o) /\
    dict_get W (points_by_seed (self s)) = Some old /\
    dict_get W (points_by_seed (self s')) = Some (old + W) /\
    (forall k, k <> W ->
       dict_get k (points_by_seed (self s'))
       = dict_get k (points_by_seed (self s))) /\
    dict_keys (points_by_seed (self s')) = dict_keys (points_by_seed (self s)).
Proof.
  intros Hv H.
  destruct (loop_body_returns _ _ _ _ _ _ Hv H)
    as (d & rest & o & p & b & g & old & Hh & Ho & Hp & Hval & Hb & Hpts & -> & ->).
  exists o, (if b then seed else o), old.
  unfold resolved_state, with_points.
  cbn [self points_by_seed resolved m_winner].
  repeat split; auto.
  - destruct b; auto.
  - apply dict_get_set_eq.
  - intros k Hk. now apply dict_get_set_ne.
  - eapply dict_keys_set_present; eauto.
Qed.

Lemma win_adds_own_seed_value_witness :
  let s := fresh_region (R := alternating_sampler) (upper_table 0.5) 1%nat in
  let s' := snd (loop_body 4 11%nat initial_locals s) in
  exists o W old,
    resolved s' = {| m_seed := 4; m_opponent := o; m_winner := W |}
                    :: resolved s /\
    (W = 4 \/ W = o) /\
    dict_get W (points_by_seed (self s)) = Some old /\
    dict_get W (points_by_seed (self s')) = Some (old + W) /\
    (forall k, k <> W ->
       dict_get k (points_by_seed (self s'))
       = dict_get k (points_by_seed (self s))) /\
    dict_keys (points_by_seed (self s')) = dict_keys (points_by_seed (self s)).
Proof.
  intros s s'.
  refine (win_adds_own_seed_value 4 11%nat initial_locals
            (resolved_locals
               (choose_opponent [] (Single 13) initial_locals) 11%nat 13)
            s s' _ _).
  - reflexivity.
  - vm_compute. reflexivity.
Defined.

(** ** Loops *)

Section Loops.

Context {R : sampler}.
Implicit Types (s : state R) (v : locals).

Lemma for_items_app before after v s :
  for_items (before ++ after) v s =
  match for_items before v s with
  | (inr v1, s1) => for_items after v1 s1
  | (inl e, s1) => (inl e, s1)
  end.
Proof.
  revert v s. induction before as [|[seed path] before IH]; intros v s.
  - reflexivity.
  - cbn [app for_items]. unfold bind.
    destruct (loop_body seed path v s) as [[e|v1] s1]; auto.
Qed.

Lemma simulate_rounds_add (k m : nat) s :
  simulate_rounds (k + m) s =
  match simulate_rounds k s with
  | (inr _, s1) => simulate_rounds m s1
  | (inl e, s1) => (inl e, s1)
  end.
Proof.
  revert s. induction k as [|k IH]; intros s.
  - reflexivity.
  - cbn [Nat.add simulate_rounds]. unfold bind.
    destruct (simulate_round_and_update_current_state s) as [[e|[]] s1]; auto.
Qed.

(** The state after one more round: the round runs from the state the
    earlier rounds left, unless one of them raised. *)
Lemma simulate_rounds_succ (n : nat) s :
  simulate_rounds (S n) s =
  match simulate_rounds n s with
  | (inr _, s1) => simulate_round_and_update_current_state s1
  | (inl e, s1) => (inl e, s1)
  end.
Proof.
  replace (S n) with (n + 1)%nat by lia. rewrite simulate_rounds_add.
  destruct (simulate_rounds n s) as [[e|[]] s1]; auto.
  cbn [simulate_rounds]. unfold bind, ret.
  destruct (simulate_round_and_update_current_state s1) as [[e|[]] s2]; auto.
Qed.

(** The round in terms of its loop. *)
Lemma simulate_round_unfold s :
  simulate_round_and_update_current_state s =
  match for_items (current_matchup_state (self s)) initial_locals s with
  | (inr v, s1) =>
      (inr tt,
       with_self (with_matchup_state (updated_matchup_state v) (self s1)) s1)
  | (inl e, s1) => (inl e, s1)
  end.
Proof. reflexivity. Qed.

(** *** Points only grow *)

Lemma points_grow_refl s : points_grow s s.
Proof. intros H. split; auto. intros k a Ha. exists a. split; auto. lia. Qed.

Lemma points_grow_trans s1 s2 s3 :
  points_grow s1 s2 -> points_grow s2 s3 -> points_grow s1 s3.
Proof.
  intros H12 H23 H1. destruct (H12 H1) as [H2 G12].
  destruct (H23 H2) as [H3 G23]. split; auto.
  intros k a Ha. destruct (G12 k a Ha) as (b & Hb & Hab).
  destruct (G23 k b Hb) as (c & Hc & Hbc). exists c. split; auto. lia.
Qed.

Lemma points_grow_same s s' :
  points_by_seed (self s') = points_by_seed (self s) -> points_grow s s'.
Proof.
  intros E H. rewrite E. split; auto. intros k a Ha. exists a. split; auto. lia.
Qed.

Lemma all_seeds_positive (k : Z) : In k all_seeds -> 1 <= k <= 16.
Proof. unfold all_seeds. simpl. intuition lia. Qed.

Lemma loop_body_points_grow seed matchup_path v s :
  points_grow s (snd (loop_body seed matchup_path v s)).
Proof.
  destruct (contains seed (visited v)) eqn:Hv.
  { rewrite loop_body_visited by assumption. apply points_grow_refl. }
  rewrite loop_body_unfold by assumption.
  destruct (heap s !! matchup_path) as [[|d rest]|];
    try apply points_grow_refl.
  cbv zeta.
  destruct (current_opponent _) as [o|]; [|now apply points_grow_same].
  destruct (extract_win_probability_by_seed _ seed o) as [e|p];
    [now apply points_grow_same|].
  destruct (valid_probability p); [|now apply points_grow_same].
  set (W := if fst (binomial R p (rng s)) then seed else o).
  destruct (dict_get W (points_by_seed (self s))) as [old|] eqn:Hold;
    [|now apply points_grow_same].
  intros Hk. unfold resolved_state, with_points.
  cbn [snd self points_by_seed m_winner].
  split.
  - erewrite dict_keys_set_present; eauto.
  - intros k a Ha.
    assert (1 <= W <= 16) as HW.
    { apply all_seeds_positive. rewrite <- Hk.
      eapply dict_get_Some_key; eauto. }
    destruct (Z.eq_dec k W) as [->|Hne].
    + rewrite dict_get_set_eq. exists (old + W). split; auto.
      rewrite Hold in Ha. injection Ha as <-. lia.
    + rewrite dict_get_set_ne by auto. exists a. split; auto. lia.
Qed.

Lemma for_items_points_grow items v s :
  points_grow s (snd (for_items items v s)).
Proof.
  revert v s. induction items as [|[seed path] items IH]; intros v s.
  - apply points_grow_refl.
  - cbn [for_items]. unfold bind.
    pose proof (loop_body_points_grow seed path v s) as H.
    destruct (loop_body seed path v s) as [[e|v1] s1]; cbn [snd] in *; auto.
    eapply points_grow_trans; eauto.
Qed.

Lemma simulate_round_points_grow s :
  points_grow s (snd (simulate_round_and_update_current_state s)).
Proof.
  rewrite simulate_round_unfold.
  pose proof (for_items_points_grow (current_matchup_state (self s))
                initial_locals s) as H.
  destruct (for_items _ _ s) as [[e|v1] s1]; cbn [snd] in *; [exact H|].
  eapply points_grow_trans; [exact H|]. now apply points_grow_same.
Qed.

Lemma simulate_rounds_points_grow (n : nat) s :
  points_grow s (snd (simulate_rounds n s)).
Proof.
  revert s. induction n as [|n IH]; intros s.
  - apply points_grow_refl.
  - cbn [simulate_rounds]. unfold bind.
    pose proof (simulate_round_points_grow s) as H.
    destruct (simulate_round_and_update_current_state s) as [[e|[]] s1];
      cbn [snd] in *; auto.
    eapply points_grow_trans; eauto.
Qed.

Lemma new_RegionBracket_points spd t h (g : rng_state R) :
  points_by_seed (self (new_RegionBracket spd t h g))
  = map (fun k => (k, 0)) all_seeds.
Proof.
  unfold new_RegionBracket, post_init. msimpl.
  destruct (deepcopy spd h). reflexivity.
Qed.

End Loops.

(** C8: at construction [points_by_seed] maps each seed 1..16 to 0; after
    any number of rounds, raised or not, its keys are still exactly the
    seeds 1..16, every value is a non-negative integer, and no value is
    lower after one more round. *)
Theorem points_by_seed_invariant {R : sampler} (spd : dict loc) (t : table)
    (h : heap_t) (g : rng_state R) (n : nat) :
  let s0 := new_RegionBracket spd t h g in
  let points_after k := points_by_seed (self (snd (simulate_rounds k s0))) in
  points_by_seed (self s0) = map (fun k => (k, 0)) all_seeds /\
  dict_keys (points_after n) = all_seeds /\
  length (points_after n) = 16%nat /\
  forall k, In k all_seeds ->
    exists a b,
      dict_get k (points_after n) = Some a /\ 0 <= a /\
      dict_get k (points_after (S n)) = Some b /\ a <= b.
Proof.
  intros s0 points_after.
  assert (points_by_seed (self s0) = map (fun k => (k, 0)) all_seeds) as H0
    by apply new_RegionBracket_points.
  assert (dict_keys (points_by_seed (self s0)) = all_seeds) as K0
    by (rewrite H0; reflexivity).
  destruct (simulate_rounds_points_grow n s0 K0) as [Kn Gn].
  split; [exact H0|]. split; [exact Kn|]. split.
  { unfold points_after. rewrite <- (length_map fst). fold (dict_keys
      (points_by_seed (self (snd (simulate_rounds n s0))))).
    rewrite Kn. reflexivity. }
  intros k Hk.
  assert (dict_get k (points_by_seed (self s0)) = Some 0) as Hk0.
  { rewrite H0. unfold all_seeds in Hk. simpl in Hk.
    repeat (destruct Hk as [<-|Hk]; [reflexivity|]). destruct Hk. }
  destruct (Gn k 0 Hk0) as (a & Ha & Ha0).
  assert (points_grow (snd (simulate_rounds n s0))
            (snd (simulate_rounds (S n) s0))) as Hstep.
  { rewrite simulate_rounds_succ.
    destruct (simulate_rounds n s0) as [[e|[]] s1]; cbn [snd].
    - apply points_grow_refl.
    - apply simulate_round_points_grow. }
  destruct (Hstep Kn) as [_ Gs].
  destruct (Gs k a Ha) as (b & Hb & Hab).
  exists a, b. auto.
Qed.

(** ** The caller's objects are left alone *)

Section Frame.

Context {R : sampler}.
Implicit Types (s : state R) (v : locals).

(** [n0] is the size of the heap when the instance is constructed: the
    caller's lists are below it, the copies at or above it. *)
Variable n0 : nat.

Lemma frame_refl s : frame n0 s s.
Proof. repeat split. Qed.

Lemma frame_trans s1 s2 s3 : frame n0 s1 s2 -> frame n0 s2 s3 -> frame n0 s1 s3.
Proof.
  intros (A1 & B1 & C1) (A2 & B2 & C2). repeat split; try congruence.
  intros l Hl. rewrite C2, C1; auto.
Qed.

Lemma frame_pop s l rest g :
  (n0 <= l)%nat ->
  frame n0 s (with_rng g (with_heap (<[l := rest]> (heap s)) s)).
Proof.
  intros Hl. repeat split. intros l' Hl'. cbn [with_rng with_heap heap].
  apply list_lookup_insert_ne. lia.
Qed.

Lemma copies_set k l (d : dict loc) :
  (n0 <= l)%nat -> copies n0 d -> copies n0 (dict_set k l d).
Proof.
  unfold copies. rewrite !List.Forall_forall. intros Hl Hd kv Hin.
  destruct (dict_set_In _ _ _ _ Hin) as [->|H]; auto.
Qed.

Lemma choose_opponent_updated keys d v :
  updated_matchup_state (choose_opponent keys d v) = updated_matchup_state v.
Proof.
  destruct d as [o|os]; cbn [choose_opponent]; auto.
  destruct (find _ os); auto.
Qed.

Lemma loop_body_frame seed (matchup_path : loc) v s :
  (n0 <= matchup_path)%nat ->
  copies n0 (updated_matchup_state v) ->
  let r := loop_body seed matchup_path v s in
  frame n0 s (snd r) /\
  current_matchup_state (self (snd r)) = current_matchup_state (self s) /\
  forall v', fst r = inr v' -> copies n0 (updated_matchup_state v').
Proof.
  intros Hpath Hv0 r.
  assert (forall g rest,
             frame n0 s (with_rng g (with_heap (<[matchup_path := rest]> (heap s)) s)))
    as F1 by (intros; now apply frame_pop).
  assert (forall e s1, frame n0 s s1 ->
             current_matchup_state (self s1) = current_matchup_state (self s) ->
             frame n0 s (snd (@inl exception locals e, s1)) /\
             current_matchup_state (self (snd (@inl exception locals e, s1)))
             = current_matchup_state (self s) /\
             forall v', fst (@inl exception locals e, s1) = inr v' ->
                        copies n0 (updated_matchup_state v')) as Raised.
  { intros e s1 F C. cbn [fst snd]. split; auto. split; auto. intros ? [=]. }
  subst r.
  destruct (contains seed (visited v)) eqn:Hv.
  { rewrite loop_body_visited by assumption. cbn [fst snd].
    split; [apply frame_refl|]. split; auto. now intros v' [= <-]. }
  rewrite loop_body_unfold by assumption.
  destruct (heap s !! matchup_path) as [[|d rest]|];
    try (apply Raised; [apply frame_refl|reflexivity]).
  cbv zeta.
  destruct (current_opponent _) as [o|];
    [|apply Raised; [apply (F1 (rng s))|reflexivity]].
  destruct (extract_win_probability_by_seed _ seed o) as [e|p];
    [apply Raised; [apply (F1 (rng s))|reflexivity]|].
  destruct (valid_probability p);
    [|apply Raised; [apply (F1 (rng s))|reflexivity]].
  destruct (dict_get _ (points_by_seed (self s))) as [old|];
    [|apply Raised; [apply F1|reflexivity]].
  cbn [fst snd]. split; [|split; [reflexivity|]].
  - repeat split. intros l Hl. unfold resolved_state. cbn [heap].
    apply list_lookup_insert_ne. lia.
  - intros v' [= <-]. unfold resolved_locals. cbn [updated_matchup_state].
    apply copies_set; auto. now rewrite choose_opponent_updated.
Qed.

Lemma for_items_frame items v s :
  copies n0 items ->
  copies n0 (updated_matchup_state v) ->
  let r := for_items items v s in
  frame n0 s (snd r) /\
  current_matchup_state (self (snd r)) = current_matchup_state (self s) /\
  forall v', fst r = inr v' -> copies n0 (updated_matchup_state v').
Proof.
  revert v s. induction items as [|[seed path] items IH]; intros v s Hi Hv.
  - cbn. split; [apply frame_refl|]. split; auto. now intros v' [= <-].
  - cbv zeta. cbn [for_items]. unfold bind.
    inversion Hi as [|? ? Hp Hi']; subst. cbn [snd] in Hp.
    destruct (loop_body_frame seed path v s Hp Hv) as (F & C & U).
    destruct (loop_body seed path v s) as [[e|v1] s1]; cbn [fst snd] in *.
    + split; [exact F|]. split; [exact C|]. intros ? [=].
    + destruct (IH v1 s1 Hi' (U v1 eq_refl)) as (F' & C' & U').
      split; [eapply frame_trans; eauto|]. split; [congruence|auto].
Qed.

Lemma simulate_round_frame s :
  copies n0 (current_matchup_state (self s)) ->
  let s' := snd (simulate_round_and_update_current_state s) in
  frame n0 s s' /\ copies n0 (current_matchup_state (self s')).
Proof.
  intros Hc. cbv zeta. rewrite simulate_round_unfold.
  destruct (for_items_frame (current_matchup_state (self s)) initial_locals s Hc)
    as (F & C & U); [constructor|].
  destruct (for_items _ _ s) as [[e|v1] s1]; cbn [fst snd] in *.
  - split; auto. now rewrite C.
  - split; [|exact (U v1 eq_refl)].
    destruct F as (A & B & D). repeat split; auto.
Qed.

Lemma simulate_rounds_frame (n : nat) s :
  copies n0 (current_matchup_state (self s)) ->
  let s' := snd (simulate_rounds n s) in
  frame n0 s s' /\ copies n0 (current_matchup_state (self s')).
Proof.
  revert s. induction n as [|n IH]; intros s Hc; cbv zeta.
  - cbn. split; [apply frame_refl|auto].
  - cbn [simulate_rounds]. unfold bind.
    destruct (simulate_round_frame s Hc) as [F C].
    destruct (simulate_round_and_update_current_state s) as [[e|[]] s1];
      cbn [snd] in *; auto.
    destruct (IH s1 C) as [F' C']. split; auto. eapply frame_trans; eauto.
Qed.

End Frame.

Section Construction.

Context {R : sampler}.

(** [deepcopy] only allocates: the heap it returns extends the one it
    was given, and every address it stores is a new one. *)
Lemma deepcopy_items_allocates (n0 : nat) items memo h y :
  (n0 <= length h)%nat ->
  Forall (fun p => (n0 <= snd p)%nat) memo ->
  copies n0 y ->
  exists ext,
    snd (deepcopy_items items memo h y) = h ++ ext /\
    copies n0 (fst (deepcopy_items items memo h y)).
Proof.
  revert memo h y. induction items as [|[key l] items IH]; intros memo h y Hh Hm Hy.
  - exists []. cbn. now rewrite app_nil_r.
  - cbn [deepcopy_items].
    match goal with
    | |- context [find ?f memo] =>
        destruct (find f memo) as [[l0 l']|] eqn:Hf
    end.
    + apply IH; auto. apply copies_set; auto.
      apply find_some in Hf. destruct Hf as [Hin _].
      rewrite List.Forall_forall in Hm. exact (Hm _ Hin).
    + destruct (IH ((l, length h) :: memo) (h ++ [default [] (h !! l)])
                  (dict_set key (length h) y)) as (ext & E & C).
      * rewrite length_app. lia.
      * constructor; auto.
      * apply copies_set; auto.
      * exists ([default [] (h !! l)] ++ ext). split; [|exact C].
        etransitivity; [exact E|]. now rewrite <- app_assoc.
Qed.

Lemma new_RegionBracket_frame spd t h (g : rng_state R) :
  let s0 := new_RegionBracket spd t h g in
  seed_path_dictionary (self s0) = spd /\
  win_probability_dictionary (self s0) = t /\
  (exists ext, heap s0 = h ++ ext) /\
  copies (length h) (current_matchup_state (self s0)).
Proof.
  cbv zeta. unfold new_RegionBracket, post_init, deepcopy.
  cbn [heap self seed_path_dictionary win_probability_dictionary].
  destruct (deepcopy_items_allocates (length h) spd [] h [])
    as (ext & E & C); [lia|constructor|constructor|].
  match goal with
  | |- context [deepcopy_items ?a ?b ?c ?d] =>
      change (deepcopy_items spd [] h []) with (deepcopy_items a b c d) in E, C;
      destruct (deepcopy_items a b c d) as [y h']
  end.
  cbn [fst snd] in E, C.
  cbn [with_heap with_self heap self seed_path_dictionary
       win_probability_dictionary current_matchup_state].
  split; [reflexivity|]. split; [reflexivity|]. split; [|exact C].
  exists ext. exact E.
Qed.

End Construction.

(** C10: after [simulate_region_tournament] on a new instance, and after
    any number of rounds, raised or not, the caller's schedule dictionary
    and its lists and the probability table are unchanged; the rounds pop
    only from the copies allocated by [deepcopy] at construction. *)
Theorem simulation_leaves_inputs_unchanged {R : sampler} (spd : dict loc)
    (t : table) (h : heap_t) (g : rng_state R) :
  let s0 := new_RegionBracket spd t h g in
  inputs_untouched spd t h s0 /\
  inputs_untouched spd t h (snd (simulate_region_tournament s0)) /\
  forall n, inputs_untouched spd t h (snd (simulate_rounds n s0)).
Proof.
  intros s0.
  assert (forall n, inputs_untouched spd t h (snd (simulate_rounds n s0))) as H.
  { intros n.
    destruct (new_RegionBracket_frame spd t h g) as (A & B & (ext & E) & C).
    fold s0 in A, B, E, C.
    destruct (simulate_rounds_frame (length h) n s0 C) as ((A' & B' & D') & C').
    split; [congruence|]. split; [congruence|]. split; [|exact C'].
    intros l x Hl.
    assert (l < length h)%nat as Hlt by (eapply lookup_lt_Some; eauto).
    rewrite D', E by assumption. now apply lookup_app_l_Some. }
  split; [exact (H 0%nat)|]. split; [exact (H 4%nat)|exact H].
Qed.

(** ** A missing probability *)

Lemma lookup_missing_iff (t : table) (a b : Z) :
  extract_win_probability_by_seed t a b = inl (MatchupProbabilityMissing a b)
  <-> entry t a b = None /\ entry t b a = None.
Proof.
  rewrite extract_by_entries.
  destruct (entry t a b); [split; [discriminate|intros [? _]; discriminate]|].
  destruct (entry t b a); [split; [discriminate|intros [_ ?]; discriminate]|].
  split; auto.
Qed.

Lemma lookup_raises_only_missing (t : table) (a b : Z) (e : exception) :
  extract_win_probability_by_seed t a b = inl e ->
  e = MatchupProbabilityMissing a b.
Proof.
  rewrite extract_by_entries.
  destruct (entry t a b); [discriminate|].
  destruct (entry t b a); [discriminate|]. now intros [= <-].
Qed.

(** C3: the lookup raises, naming both seeds, exactly when the table has
    no entry for the pair in either direction, and it raises nothing else
    (the table [{1: {}}] with matchup (1, 16) is an instance).  When the
    lookup of a matchup raises during any round of a run, the whole run
    ends with that exception: the schedule head was popped, but no
    outcome is drawn, no points are added and no matchup is recorded. *)
Theorem missing_probability_aborts {R : sampler} :
  (forall t a b,
      extract_win_probability_by_seed t a b
        = inl (MatchupProbabilityMissing a b)
      <-> entry t a b = None /\ entry t b a = None) /\
  (forall t a b e,
      extract_win_probability_by_seed t a b = inl e ->
      e = MatchupProbabilityMissing a b) /\
  (forall g : rng_state R,
      fst (simulate_region_tournament (fresh_region [(1, [])] g))
      = inl (MatchupProbabilityMissing 1 16)) /\
  (forall (k m : nat) (s0 s1 s2 : state R) before seed (path : loc) after
          v d rest o,
      simulate_rounds k s0 = (inr tt, s1) ->
      current_matchup_state (self s1) = before ++ (seed, path) :: after ->
      for_items before initial_locals s1 = (inr v, s2) ->
      contains seed (visited v) = false ->
      heap s2 !! path = Some (d :: rest) ->
      current_opponent
        (choose_opponent (dict_keys (current_matchup_state (self s2))) d v)
        = Some o ->
      entry (win_probability_dictionary (self s2)) seed o = None ->
      entry (win_probability_dictionary (self s2)) o seed = None ->
      simulate_rounds (k + S m) s0
      = (inl (MatchupProbabilityMissing seed o),
         with_heap (<[path := rest]> (heap s2)) s2)).
Proof.
  split; [exact lookup_missing_iff|].
  split; [exact lookup_raises_only_missing|].
  split; [intros g; reflexivity|].
  intros k m s0 s1 s2 before seed path after v d rest o
    Hk Hcms Hbefore Hv Hh Ho Hso Hos.
  rewrite simulate_rounds_add, Hk.
  cbn [simulate_rounds]. unfold bind at 1.
  rewrite simulate_round_unfold, Hcms, for_items_app, Hbefore.
  cbn [for_items]. unfold bind at 1.
  rewrite loop_body_unfold by assumption.
  rewrite Hh. cbv zeta. rewrite Ho.
  assert (extract_win_probability_by_seed
            (win_probability_dictionary (self s2)) seed o
          = inl (MatchupProbabilityMissing seed o)) as ->
    by (apply lookup_missing_iff; auto).
  reflexivity.
Qed.

(** ** The order on floats

    [<=?] and [<?] on binary64 values, through their specification on
    [spec_float]: apart from NaN, which compares false with everything,
    the values are ordered by a lexicographic key. *)

Module FloatOrder.

Lemma SFcompare_key (f1 f2 : spec_float) :
  is_number f1 -> is_number f2 ->
  match SFcompare f1 f2 with
  | Some Lt => lex_lt (float_key f1) (float_key f2)
  | Some Eq => float_key f1 = float_key f2
  | Some Gt => lex_lt (float_key f2) (float_key f1)
  | None => False
  end.
Proof.
  unfold is_number, lex_lt.
  destruct f1 as [s1|s1| |s1 m1 e1], f2 as [s2|s2| |s2 m2 e2];
    try congruence; intros _ _;
    try destruct s1; try destruct s2; cbn; try lia; try reflexivity.
  - destruct (Z.compare_spec e1 e2); cbn; try lia.
    fold (Pos.compare m1 m2).
    destruct (Pos.compare_spec m1 m2); cbn; subst; try lia. reflexivity.
  - destruct (Z.compare_spec e1 e2); cbn; try lia.
    fold (Pos.compare m1 m2).
    destruct (Pos.compare_spec m1 m2); cbn; subst; try lia. reflexivity.
Qed.

Lemma lex_lt_irrefl a : ~ lex_lt a a.
Proof. unfold lex_lt. lia. Qed.

Lemma lex_lt_trans a b c : lex_lt a b -> lex_lt b c -> lex_lt a c.
Proof. unfold lex_lt. lia. Qed.

Lemma lex_lt_asym a b : lex_lt a b -> ~ lex_lt b a.
Proof. unfold lex_lt. lia. Qed.

Lemma SFleb_key f1 f2 :
  SFleb f1 f2 = true <-> is_number f1 /\ is_number f2 /\ lex_le (float_key f1) (float_key f2).
Proof.
  unfold SFleb, lex_le. split.
  - intros H.
    assert (is_number f1 /\ is_number f2) as [N1 N2].
    { unfold is_number. destruct f1, f2; cbn in H; split; congruence. }
    pose proof (SFcompare_key f1 f2 N1 N2) as K.
    destruct (SFcompare f1 f2) as [[| |]|]; try discriminate; auto.
  - intros (N1 & N2 & L).
    pose proof (SFcompare_key f1 f2 N1 N2) as K.
    destruct (SFcompare f1 f2) as [[| |]|]; auto.
    destruct L as [L|E]; [now apply lex_lt_asym in K|].
    rewrite E in K. now apply lex_lt_irrefl in K.
Qed.

Lemma SFltb_key f1 f2 :
  SFltb f1 f2 = true <-> is_number f1 /\ is_number f2 /\ lex_lt (float_key f1) (float_key f2).
Proof.
  unfold SFltb. split.
  - intros H.
    assert (is_number f1 /\ is_number f2) as [N1 N2].
    { unfold is_number. destruct f1, f2; cbn in H; split; congruence. }
    pose proof (SFcompare_key f1 f2 N1 N2) as K.
    destruct (SFcompare f1 f2) as [[| |]|]; try discriminate; auto.
  - intros (N1 & N2 & L).
    pose proof (SFcompare_key f1 f2 N1 N2) as K.
    destruct (SFcompare f1 f2) as [[| |]|]; auto.
    + rewrite K in L. now apply lex_lt_irrefl in L.
    + now apply lex_lt_asym in K.
Qed.

Lemma is_nan_number (x : float) : is_nan x = false <-> is_number (Prim2SF x).
Proof.
  unfold is_nan. rewrite FloatAxioms.eqb_spec. unfold SFeqb, is_number.
  split.
  - intros H E. rewrite E in H. discriminate.
  - intros N. pose proof (SFcompare_key _ _ N N) as K.
    destruct (SFcompare (Prim2SF x) (Prim2SF x)) as [[| |]|]; auto;
      try contradiction; now apply lex_lt_irrefl in K.
Qed.

Lemma leb_key (x y : float) :
  (x <=? y)%float = true <->
  is_nan x = false /\ is_nan y = false /\
  lex_le (float_key (Prim2SF x)) (float_key (Prim2SF y)).
Proof. rewrite FloatAxioms.leb_spec, SFleb_key, !is_nan_number. reflexivity. Qed.

Lemma ltb_key (x y : float) :
  (x <? y)%float = true <->
  is_nan x = false /\ is_nan y = false /\
  lex_lt (float_key (Prim2SF x)) (float_key (Prim2SF y)).
Proof. rewrite FloatAxioms.ltb_spec, SFltb_key, !is_nan_number. reflexivity. Qed.

Lemma key_total a b : lex_le a b \/ lex_lt b a.
Proof.
  destruct a as [[a1 a2] a3], b as [[b1 b2] b3]. unfold lex_le, lex_lt. cbn.
  destruct (Z.compare_spec a1 b1); [|lia|lia].
  destruct (Z.compare_spec a2 b2); [|lia|lia].
  destruct (Z.compare_spec a3 b3); [|lia|lia].
  left. right. congruence.
Qed.

Lemma leb_refl (x : float) : is_nan x = false -> (x <=? x)%float = true.
Proof. intros N. apply leb_key. repeat split; auto. now right. Qed.

Lemma leb_trans (x y z : float) :
  (x <=? y)%float = true -> (y <=? z)%float = true -> (x <=? z)%float = true.
Proof.
  rewrite !leb_key. intros (Nx & Ny & L1) (_ & Nz & L2). repeat split; auto.
  destruct L1 as [L1|E1], L2 as [L2|E2].
  - left. eapply lex_lt_trans; eauto.
  - left. now rewrite <- E2.
  - left. now rewrite E1.
  - right. congruence.
Qed.

Lemma leb_ltb_false (x y : float) :
  (x <=? y)%float = true -> (y <? x)%float = false.
Proof.
  intros H. destruct (y <? x)%float eqn:E; auto.
  apply leb_key in H. apply ltb_key in E.
  destruct H as (_ & _ & [L| Eq]), E as (_ & _ & L').
  - now apply lex_lt_asym in L.
  - rewrite Eq in L'. now apply lex_lt_irrefl in L'.
Qed.

Lemma not_leb_ltb (x y : float) :
  is_nan x = false -> is_nan y = false ->
  (x <=? y)%float = false -> (y <? x)%float = true.
Proof.
  intros Nx Ny H. apply ltb_key. repeat split; auto.
  destruct (key_total (float_key (Prim2SF x)) (float_key (Prim2SF y))) as [L|L]; auto.
  assert ((x <=? y)%float = true) by (apply leb_key; auto). congruence.
Qed.

Lemma ltb_leb (x y : float) :
  (x <? y)%float = true -> (x <=? y)%float = true.
Proof.
  rewrite ltb_key, leb_key. intros (Nx & Ny & L). repeat split; auto. now left.
Qed.

Lemma leb_nan_r (x y : float) : is_nan y = true -> (x <=? y)%float = false.
Proof.
  intros N. destruct (x <=? y)%float eqn:E; auto.
  apply leb_key in E. destruct E as (_ & Ny & _). congruence.
Qed.

Lemma ltb_nan_r (x y : float) : is_nan y = true -> (x <? y)%float = false.
Proof.
  intros N. destruct (x <? y)%float eqn:E; auto.
  apply ltb_key in E. destruct E as (_ & Ny & _). congruence.
Qed.

Lemma leb_not_nan (x y : float) :
  (x <=? y)%float = true -> is_nan x = false /\ is_nan y = false.
Proof. rewrite leb_key. tauto. Qed.

End FloatOrder.

(** ** [np.argmin] *)

Lemma argmin_scan_first_minimum (ip pre : list float) (mp : float) (mi : nat) :
  is_nan mp = false ->
  pre !! mi = Some mp ->
  (forall j x, pre !! j = Some x -> (mp <=? x)%float = true) ->
  (forall j x, (j < mi)%nat -> pre !! j = Some x -> (x <=? mp)%float = false) ->
  first_minimum (pre ++ ip) (argmin_scan mp mi (length pre) ip).
Proof.
  revert pre mp mi.
  induction ip as [|x ip IH]; intros pre mp mi Hnan Hmi Hle Hbefore.
  - cbn [argmin_scan]. rewrite app_nil_r. exists mp. split; [exact Hmi|].
    split; [|exact Hbefore].
    intros j y Hy. apply FloatOrder.leb_ltb_false. eauto.
  - cbn [argmin_scan].
    replace (pre ++ x :: ip) with ((pre ++ [x]) ++ ip)
      by now rewrite <- app_assoc.
    assert (length (pre ++ [x]) = S (length pre)) as Hlen
      by (rewrite length_app; cbn; lia).
    assert (forall j y, (pre ++ [x]) !! j = Some y ->
                        pre !! j = Some y \/ (j = length pre /\ y = x)) as Hsplit.
    { intros j y Hy. apply lookup_app_Some in Hy.
      destruct Hy as [Hy|[Hj Hy]]; auto. right.
      destruct (j - length pre)%nat as [|n] eqn:E; cbn in Hy; [|discriminate].
      injection Hy as <-. split; auto. lia. }
    destruct (mp <=? x)%float eqn:Hx.
    + rewrite <- Hlen. apply IH; auto.
      * now apply lookup_app_l_Some.
      * intros j y Hy. destruct (Hsplit j y Hy) as [H|[_ ->]]; eauto.
      * intros j y Hj Hy. destruct (Hsplit j y Hy) as [H|[-> _]]; eauto.
        apply lookup_lt_Some in Hmi. lia.
    + destruct (is_nan x) eqn:Hxnan.
      * exists x. split; [|split].
        -- rewrite lookup_app_l by (rewrite Hlen; lia).
           rewrite lookup_app_r by lia.
           now replace (length pre - length pre)%nat with 0%nat by lia.
        -- intros j y _. now apply FloatOrder.ltb_nan_r.
        -- intros j y _ _. now apply FloatOrder.leb_nan_r.
      * assert ((x <? mp)%float = true) as Hlt
          by now apply FloatOrder.not_leb_ltb.
        rewrite <- Hlen. apply IH; auto.
        -- rewrite lookup_app_r by lia.
           now replace (length pre - length pre)%nat with 0%nat by lia.
        -- intros j y Hy. destruct (Hsplit j y Hy) as [H|[_ ->]].
           ++ eapply FloatOrder.leb_trans; [|eapply Hle; eauto].
              now apply FloatOrder.ltb_leb.
           ++ now apply FloatOrder.leb_refl.
        -- intros j y Hj Hy. destruct (Hsplit j y Hy) as [H|[-> _]]; [|lia].
           destruct (y <=? x)%float eqn:Hyx; auto.
           assert ((mp <=? x)%float = true)
             by (eapply FloatOrder.leb_trans; eauto).
           congruence.
Qed.

Lemma np_argmin_first_minimum (a : list float) :
  a <> [] -> exists k, np_argmin a = inr k /\ first_minimum a k.
Proof.
  destruct a as [|mp rest]; [congruence|]. intros _. cbn [np_argmin].
  destruct (is_nan mp) eqn:Hnan.
  - exists 0%nat. split; auto. exists mp. split; auto. split.
    + intros j x _. now apply FloatOrder.ltb_nan_r.
    + intros j x Hj. lia.
  - eexists. split; [reflexivity|].
    apply (argmin_scan_first_minimum rest [mp] mp 0); auto.
    + intros [|[|j]] x; cbn; try discriminate.
      intros [= <-]. now apply FloatOrder.leb_refl.
    + intros j x Hj. lia.
Qed.

Lemma first_minimum_bound (a : list float) (k : nat) :
  first_minimum a k -> (k < length a)%nat.
Proof. intros (m & Hm & _). eapply lookup_lt_Some; eauto. Qed.

(** ** Discretiser *)

Lemma remaining_nil (space : list Z) : remaining space [] = space.
Proof.
  unfold remaining.
  induction space as [|a space IH]; [reflexivity|].
  change (a :: List.filter (fun c => negb (contains c [])) space = a :: space).
  f_equal. exact IH.
Qed.

Lemma remaining_cons (space chosen : list Z) (k : nat) (c : Z) :
  NoDup space ->
  space !! k = Some c ->
  remaining space (c :: chosen) = remaining (delete k space) chosen.
Proof.
  unfold remaining. revert k.
  induction space as [|a space IH]; intros k Hnd Hk; [discriminate|].
  apply NoDup_cons in Hnd. destruct Hnd as [Ha Hnd].
  destruct k as [|k]; cbn in Hk.
  - injection Hk as ->. cbn [delete list_delete List.filter contains existsb].
    rewrite Z.eqb_refl. cbn [orb negb].
    apply List.filter_ext_in. intros x Hx.
    destruct (Z.eqb x c) eqn:E; auto.
    apply Z.eqb_eq in E. subst x. apply list_elem_of_In in Hx. contradiction.
  - cbn [delete list_delete List.filter contains existsb].
    destruct (Z.eqb a c) eqn:E.
    + apply Z.eqb_eq in E. subst a. exfalso. apply Ha.
      eapply list_elem_of_lookup_2; eauto.
    + cbn [orb]. fold (contains a chosen).
      destruct (negb (contains a chosen)); [f_equal|]; now apply IH.
Qed.

Lemma NoDup_delete (l : list Z) (k : nat) : NoDup l -> NoDup (delete k l).
Proof.
  intros H. eapply sublist_NoDup; [exact H|]. apply sublist_delete.
Qed.

Lemma lookup_map {A B} (f : A -> B) (l : list A) (i : nat) :
  map f l !! i = option_map f (l !! i).
Proof.
  revert i. induction l as [|a l IH]; intros [|i]; cbn; auto.
Qed.

Lemma not_elem_of_delete (l : list Z) (k : nat) (c : Z) :
  NoDup l -> l !! k = Some c -> c ∉ delete k l.
Proof.
  revert k. induction l as [|a l IH]; intros k Hnd Hk; [discriminate|].
  apply NoDup_cons in Hnd. destruct Hnd as [Ha Hnd].
  destruct k as [|k]; cbn in *.
  - now injection Hk as ->.
  - intros Hin. apply elem_of_cons in Hin. destruct Hin as [->|Hin].
    + apply Ha. eapply list_elem_of_lookup_2; eauto.
    + now apply (IH k).
Qed.

(** The loop selects, for each input in turn, the first nearest of the
    candidates left, and removes it. *)
Lemma clip_loop_selects (inputs : list float) (arr acc : list Z) :
  NoDup arr ->
  (length inputs <= length arr)%nat ->
  exists sel,
    clip_loop inputs false arr acc = inr (acc ++ sel) /\
    length sel = length inputs /\
    NoDup sel /\
    (forall c, c ∈ sel -> c ∈ arr) /\
    forall i value c,
      inputs !! i = Some value -> sel !! i = Some c ->
      nearest_first (remaining arr (take i sel)) value c.
Proof.
  revert arr acc.
  induction inputs as [|value inputs IH]; intros arr acc Hnd Hlen.
  - exists []. cbn. rewrite app_nil_r. repeat split; auto.
    + constructor.
    + intros c Hc. inversion Hc.
    + intros i value c Hi. discriminate.
  - cbn [clip_loop].
    assert (distances arr value <> []) as Hne.
    { destruct arr; cbn in *; [lia|discriminate]. }
    destruct (np_argmin_first_minimum _ Hne) as (k & -> & Hk).
    pose proof (first_minimum_bound _ _ Hk) as Hkb.
    unfold distances in Hkb. rewrite length_map in Hkb.
    destruct (lookup_lt_is_Some_2 arr k Hkb) as [c Hc]. rewrite Hc.
    destruct (IH (delete k arr) (acc ++ [c])) as (sel & E & L & N & S & P).
    { now apply NoDup_delete. }
    { rewrite length_delete by eauto. cbn in Hlen. lia. }
    exists (c :: sel). split; [|split; [|split; [|split]]].
    + rewrite E. f_equal. now rewrite <- List.app_assoc.
    + cbn [length]. now rewrite L.
    + apply NoDup_cons. split; auto. intros Hin.
      exact (not_elem_of_delete arr k c Hnd Hc (S c Hin)).
    + intros x Hx. apply elem_of_cons in Hx. destruct Hx as [->|Hx].
      * eapply list_elem_of_lookup_2; eauto.
      * eapply list_elem_of_delete_inv; eauto.
    + intros [|i] v x Hv Hx; cbn in Hv, Hx.
      * injection Hv as <-. injection Hx as <-.
        cbn [take]. rewrite remaining_nil.
        destruct Hk as (m & Hm & HA & HB).
        unfold distances in Hm, HA, HB.
        rewrite lookup_map, Hc in Hm. cbn in Hm. injection Hm as <-.
        exists k. split; [exact Hc|]. split.
        -- intros c' Hc'. apply list_elem_of_In in Hc'.
           apply list_elem_of_lookup_1 in Hc'. destruct Hc' as [j Hj].
           apply (HA j). now rewrite lookup_map, Hj.
        -- intros j c' Hjk Hj. apply (HB j); auto.
           now rewrite lookup_map, Hj.
      * cbn [take]. erewrite remaining_cons by eauto. eauto.
Qed.

Lemma clip_loop_exhausts (inputs : list float) (arr acc : list Z) :
  (length arr < length inputs)%nat ->
  clip_loop inputs false arr acc = inl ArgminOfEmptySequence.
Proof.
  revert arr acc.
  induction inputs as [|value inputs IH]; intros arr acc Hlen; [cbn in Hlen; lia|].
  cbn [clip_loop].
  destruct arr as [|a arr]; [reflexivity|].
  assert (distances (a :: arr) value <> []) as Hne by discriminate.
  destruct (np_argmin_first_minimum _ Hne) as (k & -> & Hk).
  pose proof (first_minimum_bound _ _ Hk) as Hkb.
  unfold distances in Hkb. rewrite length_map in Hkb.
  destruct (lookup_lt_is_Some_2 (a :: arr) k Hkb) as [c Hc]. rewrite Hc.
  apply IH. rewrite length_delete by eauto. cbn in *. lia.
Qed.

(** C4, as amended: without replacement, on a duplicate-free candidate
    space of [int64] values with at least as many candidates as inputs,
    the discretiser returns one candidate per input, in input order, and
    no candidate twice.  The candidate at position [i] minimizes the
    distance as the code computes it, the binary64 number
    [abs(float64(candidate) - value)], among the candidates not selected
    at positions before [i], and is the earliest of them in the order of
    the space among those of equal computed distance.  This is not the
    exact absolute distance of the specification: candidates whose exact
    distances round to the same binary64 number are tied, and the
    earliest of them is selected even when a later one is nearer. *)
Theorem discretizer_selects_nearest_remaining
    (continuous_input_arr : list float)
    (discrete_search_space : option (list Z)) :
  let space := default SINGLE_REGION_SEARCH_SPACE discrete_search_space in
  NoDup space ->
  Forall int64 space ->
  (length continuous_input_arr <= length space)%nat ->
  exists output_values,
    clip_continuous_inputs_to_discrete_search_space
      continuous_input_arr discrete_search_space false = inr output_values /\
    length output_values = length continuous_input_arr /\
    NoDup output_values /\
    (forall c, c ∈ output_values -> c ∈ space) /\
    forall i value c,
      continuous_input_arr !! i = Some value ->
      output_values !! i = Some c ->
      nearest_first (remaining space (take i output_values)) value c.
Proof.
  intros space Hnd _ Hlen.
  destruct (clip_loop_selects continuous_input_arr space [] Hnd Hlen)
    as (sel & E & L & N & S & P).
  exists sel. split; [|auto].
  unfold clip_continuous_inputs_to_discrete_search_space.
  destruct discrete_search_space; exact E.
Qed.

Lemma SINGLE_REGION_SEARCH_SPACE_NoDup : NoDup SINGLE_REGION_SEARCH_SPACE.
Proof.
  unfold SINGLE_REGION_SEARCH_SPACE. cbn.
  repeat (apply NoDup_cons_2;
          [rewrite ?elem_of_cons, elem_of_nil; lia|]).
  apply NoDup_nil_2.
Defined.

Lemma SINGLE_REGION_SEARCH_SPACE_int64 :
  Forall int64 SINGLE_REGION_SEARCH_SPACE.
Proof.
  apply List.Forall_forall. intros c Hc. unfold int64.
  cbn in Hc. lia.
Qed.

Lemma discretizer_selects_nearest_remaining_witness :
  clip_continuous_inputs_to_discrete_search_space
    [16.4; 1.1; 1.2]%float None false = inr [16; 1; 2] /\
  exists output_values,
    clip_continuous_inputs_to_discrete_search_space
      [16.4; 1.1; 1.2]%float None false = inr output_values /\
    length output_values = 3%nat /\
    NoDup output_values /\
    (forall c, c ∈ output_values -> c ∈ SINGLE_REGION_SEARCH_SPACE) /\
    forall i value c,
      [16.4; 1.1; 1.2]%float !! i = Some value ->
      output_values !! i = Some c ->
      nearest_first
        (remaining SINGLE_REGION_SEARCH_SPACE (take i output_values)) value c.
Proof.
  split; [vm_compute; reflexivity|].
  apply (discretizer_selects_nearest_remaining [16.4; 1.1; 1.2]%float None).
  - exact SINGLE_REGION_SEARCH_SPACE_NoDup.
  - exact SINGLE_REGION_SEARCH_SPACE_int64.
  - cbn. lia.
Defined.

(** C4, the counterexample to its wording.  The input [1e17] is the
    integer 10^17 exactly.  Over the candidates 1 to 16, a duplicate-free
    space of [int64] values with more candidates than inputs, the
    discretiser returns 9.  The exact distances are 10^17 - 9 for 9 and
    10^17 - 16 for 16, so 9 does not minimize the absolute distance; 16
    does.  (The computed distances of 9 to 16 all round to the same
    binary64 number, and 9 is the first of them.) *)
Lemma discretizer_nearest_in_exact_distance_fails :
  NoDup SINGLE_REGION_SEARCH_SPACE /\
  Forall int64 SINGLE_REGION_SEARCH_SPACE /\
  (length [1e17%float] <= length SINGLE_REGION_SEARCH_SPACE)%nat /\
  clip_continuous_inputs_to_discrete_search_space [1e17%float] None false
  = inr [9] /\
  exact_distance 9 1e17 = Some (10 ^ 17 - 9) /\
  exact_distance 16 1e17 = Some (10 ^ 17 - 16) /\
  spec_nearest_first SINGLE_REGION_SEARCH_SPACE 1e17 16 /\
  ~ spec_nearest_first SINGLE_REGION_SEARCH_SPACE 1e17 9.
Proof.
  split; [exact SINGLE_REGION_SEARCH_SPACE_NoDup|].
  split; [exact SINGLE_REGION_SEARCH_SPACE_int64|].
  split; [cbn; lia|].
  split; [vm_compute; reflexivity|].
  split; [vm_compute; reflexivity|].
  split; [vm_compute; reflexivity|].
  assert (forall c, In c SINGLE_REGION_SEARCH_SPACE ->
            exact_distance c 1e17 = Some (10 ^ 17 - c) /\ 1 <= c <= 16) as Hd.
  { intros c Hc. cbn in Hc.
    repeat (destruct Hc as [<-|Hc]; [split; [vm_compute; reflexivity|lia]|]).
    destruct Hc. }
  split.
  - exists 15%nat, (10 ^ 17 - 16). split; [reflexivity|].
    split; [vm_compute; reflexivity|]. split.
    + intros c' d' Hc' Hd'. destruct (Hd c' Hc') as [E Hr].
      rewrite E in Hd'. injection Hd' as <-. lia.
    + intros j c' d' Hj Hc' Hd'.
      assert (In c' SINGLE_REGION_SEARCH_SPACE) as Hin.
      { apply list_elem_of_In. eapply list_elem_of_lookup_2; eauto. }
      destruct (Hd c' Hin) as [E Hr]. rewrite E in Hd'. injection Hd' as <-.
      assert (c' <> 16); [|lia].
      intros ->.
      do 15 (destruct j as [|j]; [discriminate|]). lia.
  - intros (k & d & Hk & Hd9 & Hmin & _).
    assert (d = 10 ^ 17 - 9) as ->.
    { assert (exact_distance 9 1e17 = Some (10 ^ 17 - 9)) as E
        by (vm_compute; reflexivity).
      rewrite E in Hd9. now injection Hd9. }
    specialize (Hmin 16 (10 ^ 17 - 16)).
    assert (10 ^ 17 - 9 <= 10 ^ 17 - 16); [|lia].
    apply Hmin; [cbn; tauto|vm_compute; reflexivity].
Qed.

(** C5: without replacement, more inputs than candidates make the
    discretiser raise: [np.argmin] is called on the emptied working copy
    while inputs remain, and no list of values is returned. *)
Theorem discretizer_exhausted_space_raises
    (continuous_input_arr : list float)
    (discrete_search_space : option (list Z)) :
  let space := default SINGLE_REGION_SEARCH_SPACE discrete_search_space in
  (length space < length continuous_input_arr)%nat ->
  clip_continuous_inputs_to_discrete_search_space
    continuous_input_arr discrete_search_space false
  = inl ArgminOfEmptySequence.
Proof.
  intros space Hlen.
  unfold clip_continuous_inputs_to_discrete_search_space.
  pose proof (clip_loop_exhausts continuous_input_arr space [] Hlen) as E.
  destruct discrete_search_space; exact E.
Qed.

Lemma discretizer_exhausted_space_raises_witness :
  clip_continuous_inputs_to_discrete_search_space
    (repeat 3.3%float 17) None false
  = inl ArgminOfEmptySequence.
Proof.
  apply (discretizer_exhausted_space_raises (repeat 3.3%float 17) None).
  cbn. lia.
Defined.

(** ** Every run follows an explored path *)

Section Soundness.

Context {R : sampler}.
Implicit Types (s : state R) (so : state oracle) (v : locals).

Lemma valid_matchup_inv (m : matchup) :
  valid_matchup m = true ->
  In (m_seed m) all_seeds /\ In (m_opponent m) all_seeds /\
  m_seed m <> m_opponent m.
Proof.
  unfold valid_matchup. intros H.
  apply andb_prop in H. destruct H as [H Hne].
  apply andb_prop in H. destruct H as [Ha Hb].
  apply contains_true in Ha, Hb. repeat split; auto.
  intros E. rewrite E, Z.eqb_refl in Hne. discriminate.
Qed.

Lemma for_items_cons_visited seed (path : loc) items v s :
  contains seed (visited v) = true ->
  for_items ((seed, path) :: items) v s = for_items items v s.
Proof.
  intros H. cbn [for_items]. unfold bind.
  now rewrite loop_body_visited.
Qed.

(** What one explored outcome of a matchup says about the oracle's
    state. *)
Lemma explore_step seed (path : loc) v so items k (outcome : bool) :
  contains seed (visited v) = false ->
  match loop_body seed path v (with_rng (R := oracle) [outcome] so) with
  | (inr v', s') => last_matchup_valid s' && explore_items items v' s' k
  | (inl _, _) => false
  end = true ->
  exists d rest o old,
    heap so !! path = Some (d :: rest) /\
    current_opponent
      (choose_opponent (dict_keys (current_matchup_state (self so))) d v)
      = Some o /\
    In seed all_seeds /\ In o all_seeds /\ seed <> o /\
    dict_get (if outcome then seed else o) (points_by_seed (self so))
      = Some old /\
    explore_items items
      (resolved_locals
         (choose_opponent (dict_keys (current_matchup_state (self so))) d v)
         path (if outcome then seed else o))
      (resolved_state (with_rng (R := oracle) [outcome] so) path rest []
         {| m_seed := seed; m_opponent := o;
            m_winner := if outcome then seed else o |} old) k = true.
Proof.
  intros Hv H.
  destruct (loop_body seed path v (with_rng (R := oracle) [outcome] so))
    as [[e|v'] s'] eqn:E; [discriminate|].
  apply andb_prop in H. destruct H as [Hvalid Hrest].
  destruct (loop_body_returns _ _ _ _ _ _ Hv E)
    as (d & rest & o & p & b & g & old & Hh & Ho & Hp & Hval & Hb & Hold
        & -> & ->).
  cbn in Hb. injection Hb as <- <-.
  unfold last_matchup_valid, resolved_state in Hvalid. cbn [resolved] in Hvalid.
  apply valid_matchup_inv in Hvalid. cbn [m_seed m_opponent] in Hvalid.
  destruct Hvalid as (Hs & Hopp & Hne).
  exists d, rest, o, old. repeat split; auto.
Qed.

(** The loop of any instance follows one of the explored paths. *)
Lemma explore_items_sound items v s so k :
  explore_items items v so k = true ->
  store_of s = store_of so ->
  (forall v' s',
      for_items items v s = (inr v', s') ->
      win_probability_dictionary (self s')
      = win_probability_dictionary (self s) /\
      exists so', store_of s' = store_of so' /\ k v' so' = true) /\
  (complete_table (win_probability_dictionary (self s)) ->
   exists v' s', for_items items v s = (inr v', s')).
Proof.
  revert v s so.
  induction items as [|[seed path] items IH]; intros v s so Hx Hst.
  { cbn in Hx. split.
    - intros v' s' [= <- <-]. split; eauto.
    - intros _. exists v, s. reflexivity. }
  cbn [explore_items] in Hx.
  destruct (contains seed (visited v)) eqn:Hv.
  { rewrite for_items_cons_visited by assumption. now apply (IH v s so). }
  cbn [forallb] in Hx.
  apply andb_prop in Hx. destruct Hx as [Htrue Hx].
  apply andb_prop in Hx. destruct Hx as [Hfalse _].
  pose proof (fun b : bool =>
                explore_step seed path v so items k b Hv
                  (if b return
                      (match loop_body seed path v
                               (with_rng (R := oracle) [b] so) with
                       | (inr v', s') =>
                           last_matchup_valid s' && explore_items items v' s' k
                       | (inl _, _) => false
                       end = true)
                   then Htrue else Hfalse)) as Hstep.
  clear Htrue Hfalse.
  injection Hst as Hheap Hspd Hpts Hcms Hlog.
  cbn [for_items]. unfold bind.
  rewrite loop_body_unfold by assumption.
  destruct (Hstep true) as (d & rest & o & _ & Hh & Ho & Hs & Hopp & Hne & _).
  rewrite Hheap, Hh. cbv zeta. rewrite Hcms, Ho.
  destruct (extract_win_probability_by_seed
              (win_probability_dictionary (self s)) seed o) as [e|p] eqn:Hp.
  { split; [discriminate|]. intros Hc.
    destruct (Hc seed o Hs Hopp Hne) as (p & Hp' & _). congruence. }
  destruct (valid_probability p) eqn:Hval.
  2:{ split; [discriminate|]. intros Hc.
      destruct (Hc seed o Hs Hopp Hne) as (p' & Hp' & Hval'). congruence. }
  destruct (Hstep (fst (binomial R p (rng s))))
    as (d' & rest' & o' & old & Hh' & Ho' & _ & _ & _ & Hold & Hnext).
  rewrite Hh in Hh'. injection Hh' as <- <-.
  rewrite Ho in Ho'. injection Ho' as <-.
  rewrite Hpts, Hold.
  set (W := if fst (binomial R p (rng s)) then seed else o) in *.
  set (g' := snd (binomial R p (rng s))).
  set (v1 := resolved_locals
               (choose_opponent
                  (dict_keys (current_matchup_state (self so))) d v) path W)
    in *.
  set (m := {| m_seed := seed; m_opponent := o; m_winner := W |}) in *.
  destruct (IH v1 (resolved_state s path rest g' m old)
              (resolved_state
                 (with_rng (R := oracle) [fst (binomial R p (rng s))] so)
                 path rest [] m old) Hnext) as [IH1 IH2].
  { unfold store_of, resolved_state, with_points.
    cbn [heap self seed_path_dictionary points_by_seed current_matchup_state
         resolved with_rng].
    now rewrite Hheap, Hspd, Hpts, Hcms, Hlog. }
  split.
  - intros v' s' E. destruct (IH1 v' s' E) as [Ht Hso]. split; auto.
  - intros Hc. apply IH2. exact Hc.
Qed.

End Soundness.

Section RoundsSoundness.

Context {R : sampler}.
Implicit Types (s : state R) (so : state oracle) (v : locals).

Lemma explore_round_sound s so k :
  explore_round so k = true ->
  store_of s = store_of so ->
  (forall s',
      simulate_round_and_update_current_state s = (inr tt, s') ->
      win_probability_dictionary (self s')
      = win_probability_dictionary (self s) /\
      exists so', store_of s' = store_of so' /\ k so' = true) /\
  (complete_table (win_probability_dictionary (self s)) ->
   exists s', simulate_round_and_update_current_state s = (inr tt, s')).
Proof.
  intros Hx Hst. unfold explore_round in Hx.
  assert (current_matchup_state (self s) = current_matchup_state (self so))
    as Hcms by (now injection Hst).
  rewrite <- Hcms in Hx.
  destruct (explore_items_sound _ _ s so _ Hx Hst) as [H1 H2].
  rewrite simulate_round_unfold. split.
  - intros s' E.
    destruct (for_items _ _ s) as [[e|v1] s1]; [discriminate|].
    injection E as <-.
    destruct (H1 v1 s1 eq_refl) as (Ht & so1 & Hst1 & Hk).
    split; [exact Ht|].
    eexists. split; [|exact Hk].
    injection Hst1 as Hheap Hspd Hpts _ Hlog.
    unfold store_of, with_self, with_matchup_state.
    cbn [heap self seed_path_dictionary points_by_seed current_matchup_state
         resolved].
    now rewrite Hheap, Hspd, Hpts, Hlog.
  - intros Hc. destruct (H2 Hc) as (v1 & s1 & E). rewrite E. eauto.
Qed.

(** Every run of [n] rounds follows an explored path: [check] holds of
    the stores around each of its rounds, and on a complete table no
    round raises. *)
Lemma explore_rounds_sound check (n : nat) s so :
  explore_rounds check n so = true ->
  store_of s = store_of so ->
  (forall k sk sk1,
      (k < n)%nat ->
      simulate_rounds k s = (inr tt, sk) ->
      simulate_round_and_update_current_state sk = (inr tt, sk1) ->
      check (store_of sk) (store_of sk1) = true) /\
  (complete_table (win_probability_dictionary (self s)) ->
   exists s', simulate_rounds n s = (inr tt, s')).
Proof.
  revert s so. induction n as [|n IH]; intros s so Hx Hst.
  { split; [intros k sk sk1 Hk; lia|]. intros _. exists s. reflexivity. }
  cbn [explore_rounds] in Hx.
  destruct (explore_round_sound s so _ Hx Hst) as [H1 H2].
  split.
  - intros [|k] sk sk1 Hk Hsk Hround.
    + cbn in Hsk. injection Hsk as <-.
      destruct (H1 sk1 Hround) as (_ & so1 & Hst1 & Hc).
      apply andb_prop in Hc. destruct Hc as [Hc _].
      now rewrite Hst, Hst1.
    + cbn [simulate_rounds] in Hsk. unfold bind in Hsk.
      destruct (simulate_round_and_update_current_state s)
        as [[e|[]] s1] eqn:E; [discriminate|].
      destruct (H1 s1 eq_refl) as (_ & so1 & Hst1 & Hc).
      apply andb_prop in Hc. destruct Hc as [_ Hc].
      destruct (IH s1 so1 Hc Hst1) as [IH1 _].
      apply (IH1 k sk sk1); auto. lia.
  - intros Hc. destruct (H2 Hc) as (s1 & E).
    destruct (H1 s1 E) as (Ht & so1 & Hst1 & Hc1).
    apply andb_prop in Hc1. destruct Hc1 as [_ Hc1].
    destruct (IH s1 so1 Hc1 Hst1) as [_ IH2].
    destruct IH2 as (s' & E'); [now rewrite Ht|].
    exists s'. cbn [simulate_rounds]. unfold bind. now rewrite E.
Qed.

(** *** The record of matchups *)

Lemma log_grows_refl s : log_grows s s.
Proof. split; auto. exists []. split; auto. Qed.

Lemma log_grows_same s s' :
  win_probability_dictionary (self s') = win_probability_dictionary (self s) ->
  resolved s' = resolved s -> log_grows s s'.
Proof. intros Ht Hl. split; auto. exists []. split; auto. Qed.

Lemma log_grows_trans s1 s2 s3 :
  log_grows s1 s2 -> log_grows s2 s3 -> log_grows s1 s3.
Proof.
  intros (T1 & n1 & L1 & F1) (T2 & n2 & L2 & F2). split; [congruence|].
  exists (n2 ++ n1). split.
  - rewrite L2, L1. now rewrite List.app_assoc.
  - apply Forall_app. split; auto. now rewrite <- T1.
Qed.

Lemma loop_body_log_grows seed (path : loc) v s :
  log_grows s (snd (loop_body seed path v s)).
Proof.
  destruct (contains seed (visited v)) eqn:Hv.
  { rewrite loop_body_visited by assumption. apply log_grows_refl. }
  rewrite loop_body_unfold by assumption.
  destruct (heap s !! path) as [[|d rest]|]; try apply log_grows_refl.
  cbv zeta.
  destruct (current_opponent _) as [o|]; [|now apply log_grows_same].
  destruct (extract_win_probability_by_seed _ seed o) as [e|p] eqn:Hp;
    [now apply log_grows_same|].
  destruct (valid_probability p) eqn:Hval; [|now apply log_grows_same].
  destruct (dict_get _ (points_by_seed (self s))) as [old|];
    [|now apply log_grows_same].
  cbn [snd]. split; [reflexivity|].
  eexists [_]. split; [reflexivity|].
  constructor; [|constructor].
  exists p, (rng s). cbn [m_seed m_opponent m_winner]. auto.
Qed.

Lemma for_items_log_grows items v s :
  log_grows s (snd (for_items items v s)).
Proof.
  revert v s. induction items as [|[seed path] items IH]; intros v s.
  - apply log_grows_refl.
  - cbn [for_items]. unfold bind.
    pose proof (loop_body_log_grows seed path v s) as H.
    destruct (loop_body seed path v s) as [[e|v1] s1]; cbn [snd] in *; auto.
    eapply log_grows_trans; eauto.
Qed.

Lemma simulate_round_log_grows s :
  log_grows s (snd (simulate_round_and_update_current_state s)).
Proof.
  rewrite simulate_round_unfold.
  pose proof (for_items_log_grows (current_matchup_state (self s))
                initial_locals s) as H.
  destruct (for_items _ _ s) as [[e|v1] s1]; cbn [snd] in *; exact H.
Qed.

End RoundsSoundness.

(** ** The module's bracket *)

(** Every sequence of outcomes of the four rounds over the module's
    schedule passes the check of each round. *)
Lemma module_bracket_explored :
  explore_rounds round_check 4 (fresh_region (R := oracle) full_table [])
  = true.
Proof. vm_compute. reflexivity. Qed.

Lemma list_eqb_eq {A} (eqb : A -> A -> bool) (l1 l2 : list A) :
  (forall x y, eqb x y = true -> x = y) ->
  list_eqb eqb l1 l2 = true -> l1 = l2.
Proof.
  intros Heq. revert l2.
  induction l1 as [|x l1 IH]; intros [|y l2]; cbn; try discriminate; auto.
  intros H. apply andb_prop in H. destruct H as [Hx Hl].
  f_equal; auto.
Qed.

Lemma pair_eqb_eq {A B} (eqa : A -> A -> bool) (eqb : B -> B -> bool)
    (p q : A * B) :
  (forall x y, eqa x y = true -> x = y) ->
  (forall x y, eqb x y = true -> x = y) ->
  pair_eqb eqa eqb p q = true -> p = q.
Proof.
  intros Ha Hb. destruct p, q. unfold pair_eqb. cbn. intros H.
  apply andb_prop in H. destruct H. f_equal; auto.
Qed.

Lemma Z_eqb_eq (x y : Z) : Z.eqb x y = true -> x = y.
Proof. apply Z.eqb_eq. Qed.

Lemma Nat_eqb_eq (x y : nat) : Nat.eqb x y = true -> x = y.
Proof. apply Nat.eqb_eq. Qed.


(** The parts of the check of a round. *)
Lemma round_check_inv (pre post : store) :
  round_check pre post = true ->
  length (st_log post) = count_after (length (st_log pre)) /\
  Forall (fun m => inherits_slotb pre post m = true) (new_matchups pre post) /\
  Forall (fun m => valid_matchup m = true) (new_matchups pre post) /\
  map (fun m => (m_seed m, m_opponent m)) (new_matchups pre post)
  = fold_pairs (alive_of pre) /\
  st_state post
  = combine (map m_winner (new_matchups pre post))
      (seq 8 (length (new_matchups pre post))) /\
  st_points post
  = credit_all (map m_winner (new_matchups pre post)) (st_points pre).
Proof.
  unfold round_check. cbv zeta. intros H.
  repeat (apply andb_prop in H; destruct H as [H ?]).
  repeat split.
  - now apply Nat.eqb_eq.
  - now apply List.Forall_forall, forallb_forall.
  - now apply List.Forall_forall, forallb_forall.
  - eapply list_eqb_eq; [|eassumption].
    intros x y. apply pair_eqb_eq; apply Z_eqb_eq.
  - eapply list_eqb_eq; [|eassumption].
    intros x y. apply pair_eqb_eq; [apply Z_eqb_eq|apply Nat_eqb_eq].
  - eapply list_eqb_eq; [|eassumption].
    intros x y. apply pair_eqb_eq; apply Z_eqb_eq.
Qed.

Section ModuleBracket.

Context {R : sampler}.
Implicit Types (s : state R).

(** Every round of a run on a fresh instance over the module's schedule
    passes the check, and on a complete table the four rounds return. *)
Lemma module_rounds (t : table) (g : rng_state R) :
  (forall k sk sk1,
      (k < 4)%nat ->
      simulate_rounds k (fresh_region t g) = (inr tt, sk) ->
      simulate_round_and_update_current_state sk = (inr tt, sk1) ->
      round_check (store_of sk) (store_of sk1) = true) /\
  (complete_table t ->
   exists s', simulate_rounds 4 (fresh_region t g) = (inr tt, s')).
Proof.
  apply (explore_rounds_sound round_check 4 (fresh_region t g)
           (fresh_region (R := oracle) full_table [])).
  - exact module_bracket_explored.
  - reflexivity.
Qed.

Lemma simulate_rounds_succ_inv (n : nat) s s' :
  simulate_rounds (S n) s = (inr tt, s') ->
  exists sn,
    simulate_rounds n s = (inr tt, sn) /\
    simulate_round_and_update_current_state sn = (inr tt, s').
Proof.
  rewrite simulate_rounds_succ.
  destruct (simulate_rounds n s) as [[e|[]] sn]; [discriminate|]. eauto.
Qed.

(** The matchups a returning round adds to the record. *)
Lemma round_new_matchups (sk sk1 : state R) :
  simulate_round_and_update_current_state sk = (inr tt, sk1) ->
  exists new,
    resolved sk1 = new ++ resolved sk /\
    new_matchups (store_of sk) (store_of sk1) = rev new.
Proof.
  intros E. pose proof (simulate_round_log_grows sk) as (_ & new & Hn & _).
  rewrite E in Hn. cbn [snd] in Hn. exists new. split; auto.
  unfold new_matchups, st_log, store_of. cbn [snd]. rewrite Hn.
  rewrite length_app.
  replace (length new + length (resolved sk) - length (resolved sk))%nat
    with (length new) by lia.
  now rewrite take_app_length.
Qed.

End ModuleBracket.

(** ** Fifteen matchups *)

Lemma complete_tableb_sound (t : table) :
  complete_tableb t = true -> complete_table t.
Proof.
  unfold complete_tableb. rewrite forallb_forall.
  intros H a b Ha Hb Hne.
  specialize (H a Ha). rewrite forallb_forall in H. specialize (H b Hb).
  apply orb_prop in H. destruct H as [H|H].
  - apply Z.eqb_eq in H. contradiction.
  - destruct (extract_win_probability_by_seed t a b) as [e|p];
      [discriminate|eauto].
Qed.

(** C6: on a complete table, whatever the generator draws, the four
    rounds of [simulate_region_tournament] on a fresh instance return,
    and the record of resolved matchups grows by 8 in round 1, 4 in
    round 2, 2 in round 3 and 1 in round 4: 15 in all. *)
Theorem tournament_resolves_fifteen_matchups {R : sampler} (t : table)
    (g : rng_state R) :
  complete_table t ->
  exists s1 s2 s3 s4 r1 r2 r3 r4,
    simulate_rounds 1 (fresh_region t g) = (inr tt, s1) /\
    simulate_rounds 2 (fresh_region t g) = (inr tt, s2) /\
    simulate_rounds 3 (fresh_region t g) = (inr tt, s3) /\
    simulate_region_tournament (fresh_region t g) = (inr tt, s4) /\
    resolved (fresh_region t g) = [] /\
    resolved s1 = r1 /\
    resolved s2 = r2 ++ r1 /\
    resolved s3 = r3 ++ r2 ++ r1 /\
    resolved s4 = r4 ++ r3 ++ r2 ++ r1 /\
    length r1 = 8%nat /\ length r2 = 4%nat /\
    length r3 = 2%nat /\ length r4 = 1%nat /\
    length (resolved s4) = 15%nat.
Proof.
  intros Hc. destruct (module_rounds t g) as [Hcheck Hrun].
  destruct (Hrun Hc) as (s4 & E4).
  destruct (simulate_rounds_succ_inv _ _ _ E4) as (s3 & E3 & R4).
  destruct (simulate_rounds_succ_inv _ _ _ E3) as (s2 & E2 & R3).
  destruct (simulate_rounds_succ_inv _ _ _ E2) as (s1 & E1 & R2).
  destruct (simulate_rounds_succ_inv _ _ _ E1) as (s0 & E0 & R1).
  cbn in E0. injection E0 as <-.
  assert (forall k sk sk1,
             (k < 4)%nat ->
             simulate_rounds k (fresh_region t g) = (inr tt, sk) ->
             simulate_round_and_update_current_state sk = (inr tt, sk1) ->
             length (resolved sk1) = count_after (length (resolved sk)) /\
             exists new, resolved sk1 = new ++ resolved sk) as Hstep.
  { intros k sk sk1 Hk Ek Er.
    destruct (round_check_inv _ _ (Hcheck k sk sk1 Hk Ek Er)) as (Hlen & _).
    destruct (round_new_matchups sk sk1 Er) as (new & Hn & _).
    split; eauto. }
  destruct (Hstep 0%nat _ _ ltac:(lia) eq_refl R1) as (L1 & r1 & N1).
  destruct (Hstep 1%nat _ _ ltac:(lia) E1 R2) as (L2 & r2 & N2).
  destruct (Hstep 2%nat _ _ ltac:(lia) E2 R3) as (L3 & r3 & N3).
  destruct (Hstep 3%nat _ _ ltac:(lia) E3 R4) as (L4 & r4 & N4).
  change (resolved (fresh_region t g)) with (@nil matchup) in *.
  rewrite app_nil_r in N1. cbn [length count_after] in L1.
  rewrite L1 in L2. cbn [count_after] in L2.
  rewrite L2 in L3. cbn [count_after] in L3.
  rewrite L3 in L4. cbn [count_after] in L4.
  exists s1, s2, s3, s4, r1, r2, r3, r4.
  rewrite N4, N3, N2, N1 in *.
  rewrite !length_app in *.
  repeat split; auto; lia.
Qed.

Lemma tournament_resolves_fifteen_matchups_witness :
  exists s1 s2 s3 s4 r1 r2 r3 r4,
    simulate_rounds 1
      (fresh_region (R := alternating_sampler) (upper_table 0.5) 0%nat)
    = (inr tt, s1) /\
    simulate_rounds 2
      (fresh_region (R := alternating_sampler) (upper_table 0.5) 0%nat)
    = (inr tt, s2) /\
    simulate_rounds 3
      (fresh_region (R := alternating_sampler) (upper_table 0.5) 0%nat)
    = (inr tt, s3) /\
    simulate_region_tournament
      (fresh_region (R := alternating_sampler) (upper_table 0.5) 0%nat)
    = (inr tt, s4) /\
    resolved (fresh_region (R := alternating_sampler) (upper_table 0.5) 0%nat)
    = [] /\
    resolved s1 = r1 /\
    resolved s2 = r2 ++ r1 /\
    resolved s3 = r3 ++ r2 ++ r1 /\
    resolved s4 = r4 ++ r3 ++ r2 ++ r1 /\
    length r1 = 8%nat /\ length r2 = 4%nat /\
    length r3 = 2%nat /\ length r4 = 1%nat /\
    length (resolved s4) = 15%nat.
Proof.
  apply (tournament_resolves_fifteen_matchups (R := alternating_sampler)
           (upper_table 0.5) 0%nat).
  apply complete_tableb_sound. vm_compute. reflexivity.
Defined.

(** ** The winner inherits the slot *)



(** ** Deterministic tables *)

Lemma map_fst_combine {A B} (l : list A) (k : list B) :
  length l = length k -> map fst (combine l k) = l.
Proof.
  revert k. induction l as [|a l IH]; intros [|b k]; cbn; try discriminate; auto.
  intros [= H]. now rewrite IH.
Qed.

Section Deterministic.

Context {R : sampler}.
Variable t : table.
Hypothesis Hdet : deterministic_table t.
Hypothesis Hdraw : certain_draws R.

Lemma deterministic_table_complete : complete_table t.
Proof.
  intros a b Ha Hb Hne.
  destruct (Hdet a b Ha Hb Hne) as [E|E]; eexists; (split; [exact E|reflexivity]).
Qed.

(** On such a table the draw of a valid matchup is decided. *)
Lemma decided_winner_beats (m : matchup) :
  valid_matchup m = true ->
  decided_by_draw (R := R) t m ->
  m_winner m = beats t (m_seed m) (m_opponent m).
Proof.
  intros Hv (p & g & Hp & _ & HW).
  apply valid_matchup_inv in Hv. destruct Hv as (Ha & Hb & Hne).
  unfold beats. rewrite HW, Hp.
  destruct (Hdet _ _ Ha Hb Hne) as [E|E]; rewrite Hp in E;
    injection E as ->; destruct (Hdraw g) as [H1 H0].
  - now rewrite H1.
  - now rewrite H0.
Qed.

Lemma simulate_rounds_table (n : nat) (s : state R) :
  win_probability_dictionary (self (snd (simulate_rounds n s)))
  = win_probability_dictionary (self s).
Proof.
  revert s. induction n as [|n IH]; intros s; [reflexivity|].
  cbn [simulate_rounds]. unfold bind.
  pose proof (simulate_round_log_grows s) as [Ht _].
  destruct (simulate_round_and_update_current_state s) as [[e|[]] s1];
    cbn [snd] in *; auto.
  now rewrite IH.
Qed.

Lemma chained_round (g : rng_state R) (k : nat) (sk sk1 : state R) :
  (k < 4)%nat ->
  simulate_rounds k (fresh_region t g) = (inr tt, sk) ->
  simulate_round_and_update_current_state sk = (inr tt, sk1) ->
  chained t k sk ->
  chained t (S k) sk1 /\
  current_matchup_state (self sk1)
  = combine (chain_alive t (S k)) (seq 8 (count_at (S k) - count_at k)).
Proof.
  intros Hk Ek Er (Hlen & Halive & Hpts).
  destruct (module_rounds t g) as [Hcheck _].
  destruct (round_check_inv _ _ (Hcheck k sk sk1 Hk Ek Er))
    as (Hcount & _ & Hvalid & Hpairs & Hstate & Hpoints).
  pose proof (simulate_round_log_grows sk) as (_ & new & Hnew & Hdecided).
  rewrite Er in Hnew. cbn [snd] in Hnew.
  destruct (round_new_matchups sk sk1 Er) as (new' & Hnew' & Hrev).
  assert (new' = new) as ->.
  { rewrite Hnew in Hnew'. now apply app_inv_tail in Hnew'. }
  assert (win_probability_dictionary (self sk) = t) as Ht.
  { pose proof (simulate_rounds_table k (fresh_region t g)) as H.
    rewrite Ek in H. exact H. }
  rewrite Ht in Hdecided.
  rewrite Hrev in Hvalid, Hpairs, Hstate, Hpoints.
  unfold st_log, st_state, st_points, store_of in Hcount, Hstate, Hpoints.
  cbn [fst snd] in Hcount, Hstate, Hpoints.
  assert (map m_winner (rev new) = chain_alive t (S k)) as Hwin.
  { change (chain_alive t (S k)) with (chain_round t (chain_alive t k)).
    unfold chain_round. rewrite <- Halive, <- Hpairs, map_map.
    apply map_ext_in. intros m Hm. cbn [fst snd].
    apply decided_winner_beats.
    - rewrite List.Forall_forall in Hvalid. now apply Hvalid.
    - rewrite List.Forall_forall in Hdecided. apply Hdecided.
      now apply in_rev. }
  assert (length new = (count_at (S k) - count_at k)%nat) as Hn.
  { rewrite Hlen in Hcount. rewrite Hnew, length_app, Hlen in Hcount.
    destruct k as [|[|[|[|k]]]]; cbn in Hcount |- *; lia. }
  rewrite Hwin, length_rev, Hn in Hstate.
  split; [|exact Hstate].
  split; [|split].
  - rewrite Hcount, Hlen.
    destruct k as [|[|[|[|k]]]]; cbn; lia.
  - unfold alive_of, st_log, st_state, store_of. cbn [fst snd].
    rewrite Hnew.
    destruct new as [|m new]; [cbn in Hn;
      destruct k as [|[|[|[|k]]]]; cbn in Hn; lia|].
    cbn [app]. rewrite Hstate. unfold dict_keys.
    rewrite <- Hn, <- (length_rev (m :: new)), <- (length_map m_winner), Hwin.
    apply map_fst_combine. now rewrite length_seq.
  - cbn [chain_points]. now rewrite Hpoints, Hwin, Hpts.
Qed.

(** The tournament on such a table: it returns, and its final state is
    the one of the chained wins. *)
Lemma deterministic_tournament (g : rng_state R) :
  exists s4 champion,
    simulate_region_tournament (fresh_region t g) = (inr tt, s4) /\
    chain_alive t 4 = [champion] /\
    current_matchup_state (self s4) = [(champion, 8%nat)] /\
    points_by_seed (self s4) = chain_points t 4.
Proof.
  destruct (module_rounds t g) as [_ Hrun].
  destruct (Hrun deterministic_table_complete) as (s4 & E4).
  destruct (simulate_rounds_succ_inv _ _ _ E4) as (s3 & E3 & R4).
  destruct (simulate_rounds_succ_inv _ _ _ E3) as (s2 & E2 & R3).
  destruct (simulate_rounds_succ_inv _ _ _ E2) as (s1 & E1 & R2).
  destruct (simulate_rounds_succ_inv _ _ _ E1) as (s0 & E0 & R1).
  cbn in E0. injection E0 as <-.
  assert (chained t 0 (fresh_region t g)) as C0 by (repeat split).
  destruct (chained_round g 0 _ _ ltac:(lia) eq_refl R1 C0) as [C1 _].
  destruct (chained_round g 1 _ _ ltac:(lia) E1 R2 C1) as [C2 _].
  destruct (chained_round g 2 _ _ ltac:(lia) E2 R3 C2) as [C3 _].
  destruct (chained_round g 3 _ _ ltac:(lia) E3 R4 C3) as [C4 S4].
  destruct C4 as (_ & A4 & P4).
  change (count_at 4 - count_at 3)%nat with 1%nat in S4.
  assert (length (chain_alive t 4) = 1%nat) as L4.
  { change (chain_alive t 4) with (chain_round t (chain_alive t 3)).
    unfold chain_round. rewrite length_map.
    destruct C3 as (L3 & A3 & _).
    destruct (module_rounds t g) as [Hcheck _].
    destruct (round_check_inv _ _ (Hcheck 3%nat s3 s4 ltac:(lia) E3 R4))
      as (Hcount & _ & _ & Hpairs & _).
    rewrite <- A3, <- Hpairs, length_map.
    destruct (round_new_matchups s3 s4 R4) as (new & Hnew & Hrev).
    rewrite Hrev, length_rev.
    unfold st_log, store_of in Hcount. cbn [snd] in Hcount.
    rewrite Hnew, length_app, L3 in Hcount. cbn in Hcount. lia. }
  destruct (chain_alive t 4) as [|champion [|? ?]] eqn:E; try discriminate.
  exists s4, champion. repeat split; auto.
Qed.

End Deterministic.

(** C9: on a table that gives every pair of different seeds probability
    1.0 or 0.0, with a generator that returns 1 at probability 1.0 and 0
    at 0.0, any two runs of [simulate_region_tournament] on fresh
    instances return with equal [points_by_seed] and with a matchup
    state of exactly one entry, the same champion: the seed left by
    chaining the certain wins through the four rounds. *)
Theorem deterministic_table_single_champion {R : sampler} (t : table)
    (g1 g2 : rng_state R) :
  deterministic_table t ->
  certain_draws R ->
  exists s1 s2 champion,
    simulate_region_tournament (fresh_region t g1) = (inr tt, s1) /\
    simulate_region_tournament (fresh_region t g2) = (inr tt, s2) /\
    points_by_seed (self s1) = points_by_seed (self s2) /\
    current_matchup_state (self s1) = [(champion, 8%nat)] /\
    current_matchup_state (self s2) = [(champion, 8%nat)] /\
    chain_alive t 4 = [champion] /\
    points_by_seed (self s1) = chain_points t 4.
Proof.
  intros Hdet Hdraw.
  destruct (deterministic_tournament t Hdet Hdraw g1)
    as (s1 & c1 & E1 & A1 & M1 & P1).
  destruct (deterministic_tournament t Hdet Hdraw g2)
    as (s2 & c2 & E2 & A2 & M2 & P2).
  assert (c2 = c1) as -> by congruence.
  exists s1, s2, c1. repeat split; auto. congruence.
Qed.

Lemma upper_table_one_deterministic : deterministic_table (upper_table 1).
Proof.
  intros a b Ha Hb Hne. unfold all_seeds in Ha, Hb. cbn [In] in Ha, Hb.
  repeat (destruct Ha as [<-|Ha]); try contradiction;
    repeat (destruct Hb as [<-|Hb]); try contradiction;
    first [left; reflexivity|right; reflexivity|now elim Hne].
Qed.

Lemma threshold_sampler_certain : certain_draws threshold_sampler.
Proof. intros g. split; reflexivity. Qed.

Lemma deterministic_table_single_champion_witness :
  exists s1 s2 champion,
    simulate_region_tournament
      (fresh_region (R := threshold_sampler) (upper_table 1) 0%nat)
    = (inr tt, s1) /\
    simulate_region_tournament
      (fresh_region (R := threshold_sampler) (upper_table 1) 7%nat)
    = (inr tt, s2) /\
    points_by_seed (self s1) = points_by_seed (self s2) /\
    current_matchup_state (self s1) = [(champion, 8%nat)] /\
    current_matchup_state (self s2) = [(champion, 8%nat)] /\
    chain_alive (upper_table 1) 4 = [champion] /\
    points_by_seed (self s1) = chain_points (upper_table 1) 4.
Proof.
  apply (deterministic_table_single_champion (R := threshold_sampler)
           (upper_table 1) 0%nat 7%nat).
  - exact upper_table_one_deterministic.
  - exact threshold_sampler_certain.
Defined.

(** The chained wins of the table on which the lower seed number always
    wins: seed 1 is the champion, with its four wins on record. *)
Example chain_of_favourites :
  chain_alive (upper_table 1) 4 = [1] /\
  dict_get 1 (chain_points (upper_table 1) 4) = Some 4 /\
  dict_get 2 (chain_points (upper_table 1) 4) = Some 6 /\
  dict_get 16 (chain_points (upper_table 1) 4) = Some 0.
Proof. repeat split; reflexivity. Qed.

(** * Further properties *)

(** ** Totals and wins *)

Lemma wins_cons (k : Z) (m : matchup) (log : list matchup) :
  wins k (m :: log)
  = wins k log + (if Z.eqb (m_winner m) k then 1 else 0).
Proof.
  unfold wins. cbn [List.filter].
  destruct (Z.eqb (m_winner m) k); cbn [length]; lia.
Qed.

Section Scoring.

Context {R : sampler}.
Implicit Types (s : state R) (v : locals).

Lemma scored_same s s' :
  points_by_seed (self s') = points_by_seed (self s) ->
  resolved s' = resolved s -> scored s -> scored s'.
Proof. unfold scored. intros -> ->. auto. Qed.

Lemma loop_body_scored seed (path : loc) v s :
  scored s -> scored (snd (loop_body seed path v s)).
Proof.
  intros Hs.
  destruct (contains seed (visited v)) eqn:Hv.
  { now rewrite loop_body_visited by assumption. }
  rewrite loop_body_unfold by assumption.
  destruct (heap s !! path) as [[|d rest]|]; try exact Hs.
  cbv zeta.
  destruct (current_opponent _) as [o|]; [|now apply (scored_same s)].
  destruct (extract_win_probability_by_seed _ seed o) as [e|p];
    [now apply (scored_same s)|].
  destruct (valid_probability p); [|now apply (scored_same s)].
  set (W := if fst (binomial R p (rng s)) then seed else o).
  destruct (dict_get W (points_by_seed (self s))) as [old|] eqn:Hold;
    [|now apply (scored_same s)].
  intros k a. unfold resolved_state, with_points.
  cbn [snd self points_by_seed resolved m_winner].
  rewrite wins_cons. cbn [m_winner].
  destruct (Z.eq_dec k W) as [->|Hne].
  - rewrite dict_get_set_eq, Z.eqb_refl. intros [= <-].
    rewrite (Hs W old Hold). lia.
  - rewrite dict_get_set_ne by auto.
    destruct (Z.eqb_spec W k); [congruence|].
    intros Ha. rewrite (Hs k a Ha). lia.
Qed.

Lemma for_items_scored items v s :
  scored s -> scored (snd (for_items items v s)).
Proof.
  revert v s. induction items as [|[seed path] items IH]; intros v s Hs.
  - exact Hs.
  - cbn [for_items]. unfold bind.
    pose proof (loop_body_scored seed path v s Hs) as H.
    destruct (loop_body seed path v s) as [[e|v1] s1]; cbn [snd] in *; auto.
Qed.

Lemma simulate_round_scored s :
  scored s -> scored (snd (simulate_round_and_update_current_state s)).
Proof.
  intros Hs. rewrite simulate_round_unfold.
  pose proof (for_items_scored (current_matchup_state (self s))
                initial_locals s Hs) as H.
  destruct (for_items _ _ s) as [[e|v1] s1]; cbn [snd] in *; exact H.
Qed.

Lemma simulate_rounds_scored (n : nat) s :
  scored s -> scored (snd (simulate_rounds n s)).
Proof.
  revert s. induction n as [|n IH]; intros s Hs.
  - exact Hs.
  - cbn [simulate_rounds]. unfold bind.
    pose proof (simulate_round_scored s Hs) as H.
    destruct (simulate_round_and_update_current_state s) as [[e|[]] s1];
      cbn [snd] in *; auto.
Qed.

Lemma new_RegionBracket_resolved spd t h (g : rng_state R) :
  resolved (new_RegionBracket spd t h g) = [].
Proof.
  unfold new_RegionBracket, post_init. msimpl.
  destruct (deepcopy spd h). reflexivity.
Qed.

Lemma new_RegionBracket_scored spd t h (g : rng_state R) :
  scored (new_RegionBracket spd t h g).
Proof.
  intros k a. rewrite new_RegionBracket_points, new_RegionBracket_resolved.
  intros Ha. apply dict_get_Some_In in Ha.
  apply in_map_iff in Ha. destruct Ha as (x & [= <- <-] & _).
  unfold wins. cbn. lia.
Qed.

End Scoring.

(** X1: after any number of rounds of any instance, raised or not, the
    total of every seed is its seed value times the number of matchups
    on record that it won. *)
Theorem points_are_seed_times_wins {R : sampler} (spd : dict loc) (t : table)
    (h : heap_t) (g : rng_state R) (n : nat) :
  let s := snd (simulate_rounds n (new_RegionBracket spd t h g)) in
  Forall
    (fun k => dict_get k (points_by_seed (self s))
              = Some (k * wins k (resolved s)))
    all_seeds.
Proof.
  intros s. apply List.Forall_forall. intros k Hk.
  assert (dict_keys (points_by_seed (self (new_RegionBracket spd t h g)))
          = all_seeds) as K0
    by (rewrite new_RegionBracket_points; reflexivity).
  destruct (simulate_rounds_points_grow n _ K0) as [_ G].
  destruct (G k 0) as (a & Ha & _).
  { rewrite new_RegionBracket_points.
    unfold all_seeds in Hk. simpl in Hk.
    repeat (destruct Hk as [<-|Hk]; [reflexivity|]). destruct Hk. }
  fold s in Ha. rewrite Ha. f_equal.
  apply (simulate_rounds_scored n (new_RegionBracket spd t h g)); auto.
  apply new_RegionBracket_scored.
Qed.

(** ** Survivors of the module's bracket *)

(** Every sequence of outcomes of the four rounds over the module's
    schedule passes the check of the survivors of each round. *)
Lemma module_survivors_explored :
  explore_rounds survivors_check 4 (fresh_region (R := oracle) full_table [])
  = true.
Proof. vm_compute. reflexivity. Qed.

Lemma contains_false (x : Z) (xs : list Z) :
  contains x xs = false -> x ∉ xs.
Proof.
  unfold contains. intros H Hin. apply list_elem_of_In in Hin.
  assert (existsb (Z.eqb x) xs = true) as E.
  { apply existsb_exists. exists x. split; auto. apply Z.eqb_refl. }
  congruence.
Qed.

Lemma nodupb_NoDup (l : list Z) : nodupb l = true -> NoDup l.
Proof.
  induction l as [|x l IH]; cbn [nodupb]; intros H; [constructor|].
  apply andb_prop in H. destruct H as [Hx Hl].
  constructor; auto. apply contains_false.
  now destruct (contains x l).
Qed.

(** No matchup played after [m] involves the seed that lost [m]. *)
Lemma losers_stay_out_sound (log later earlier : list matchup) (m : matchup) :
  losers_stay_out log = true ->
  log = later ++ m :: earlier ->
  Forall (fun m' => m_seed m' <> loser m /\ m_opponent m' <> loser m) later.
Proof.
  revert log. induction later as [|m' later IH]; intros log H E; [constructor|].
  subst log. cbn [app losers_stay_out] in H.
  apply andb_prop in H. destruct H as [Hm' Hrest].
  constructor; [|now apply (IH (later ++ m :: earlier))].
  rewrite forallb_forall in Hm'.
  specialize (Hm' m ltac:(apply in_or_app; right; now left)).
  unfold plays in Hm'. apply negb_true_iff, orb_false_elim in Hm'.
  destruct Hm' as [H1 H2].
  apply Z.eqb_neq in H1, H2. split; congruence.
Qed.

(** The parts of the check of the survivors of a round. *)
Lemma survivors_check_inv (pre post : store) :
  survivors_check pre post = true ->
  let new := new_matchups pre post in
  let r := rounds_at (length (st_log post)) in
  NoDup (alive_of pre) /\
  map m_seed new ++ rev (map m_opponent new) = alive_of pre /\
  dict_keys (st_state post) = map m_winner new /\
  Forall
    (fun kv =>
       In (fst kv) all_seeds /\
       wins (fst kv) (st_log post) = Z.of_nat r /\
       exists path,
         st_heap post !! snd kv = Some path /\ (length path + r = 4)%nat)
    (st_state post) /\
  Forall (fun m => decided m = true) (st_log post) /\
  losers_stay_out (st_log post) = true /\
  Forall (fun k => wins k (st_log post) <= Z.of_nat r) all_seeds.
Proof.
  unfold survivors_check. cbv zeta. intros H.
  repeat (apply andb_prop in H; destruct H as [H ?]).
  repeat split.
  - now apply nodupb_NoDup.
  - eapply list_eqb_eq; [|eassumption]. apply Z_eqb_eq.
  - eapply list_eqb_eq; [|eassumption]. apply Z_eqb_eq.
  - apply List.Forall_forall. intros kv Hkv.
    match goal with
    | F : forallb _ _ = true |- _ =>
        rewrite forallb_forall in F; specialize (F kv Hkv);
        apply andb_prop in F; destruct F as [F Hp];
        apply andb_prop in F; destruct F as [Hs Hw]
    end.
    split; [now apply contains_true|]. split; [now apply Z.eqb_eq|].
    destruct (st_heap post !! snd kv) as [path|]; [|discriminate].
    exists path. split; auto. now apply Nat.eqb_eq.
  - now apply List.Forall_forall, forallb_forall.
  - assumption.
  - apply List.Forall_forall. intros k Hk. apply Z.leb_le.
    match goal with
    | F : forallb _ all_seeds = true |- _ =>
        rewrite forallb_forall in F; exact (F k Hk)
    end.
Qed.

(** The loser of a decided matchup is one of its two seeds and not its
    winner. *)
Lemma decided_loser (m : matchup) :
  decided m = true ->
  (loser m = m_seed m \/ loser m = m_opponent m) /\ loser m <> m_winner m.
Proof.
  unfold decided, plays, loser. intros H.
  apply andb_prop in H. destruct H as [Hv Hw].
  apply valid_matchup_inv in Hv. destruct Hv as (_ & _ & Hne).
  destruct (Z.eqb_spec (m_winner m) (m_seed m)) as [E|E].
  - split; [now right|congruence].
  - split; [now left|congruence].
Qed.

Section Survivors.

Context {R : sampler}.
Implicit Types (s : state R).

Lemma module_survivors (t : table) (g : rng_state R) k sk sk1 :
  (k < 4)%nat ->
  simulate_rounds k (fresh_region t g) = (inr tt, sk) ->
  simulate_round_and_update_current_state sk = (inr tt, sk1) ->
  survivors_check (store_of sk) (store_of sk1) = true.
Proof.
  apply (explore_rounds_sound survivors_check 4 (fresh_region t g)
           (fresh_region (R := oracle) full_table [])).
  - exact module_survivors_explored.
  - reflexivity.
Qed.

(** The number of matchups on record after [k] rounds. *)
Lemma module_round_counts (t : table) (g : rng_state R) (k : nat) sk :
  (k <= 4)%nat ->
  simulate_rounds k (fresh_region t g) = (inr tt, sk) ->
  length (resolved sk) = count_at k.
Proof.
  revert sk. induction k as [|k IH]; intros sk Hk E.
  - cbn in E. injection E as <-. reflexivity.
  - destruct (simulate_rounds_succ_inv _ _ _ E) as (sn & En & Er).
    specialize (IH sn ltac:(lia) En).
    destruct (module_rounds t g) as [Hcheck _].
    destruct (round_check_inv _ _ (Hcheck k sn sk ltac:(lia) En Er))
      as (Hlen & _).
    unfold st_log, store_of in Hlen. cbn [snd] in Hlen.
    rewrite Hlen, IH.
    destruct k as [|[|[|[|k]]]]; try reflexivity. lia.
Qed.

(** The state a returning tournament leaves: one seed, whose schedule is
    used up and who won the four matchups it played. *)
Lemma module_final_state (t : table) (g : rng_state R) s4 :
  simulate_region_tournament (fresh_region t g) = (inr tt, s4) ->
  exists champion path,
    current_matchup_state (self s4) = [(champion, path)] /\
    heap s4 !! path = Some [] /\
    In champion all_seeds /\
    wins champion (resolved s4) = 4 /\
    exists final earlier,
      resolved s4 = final :: earlier /\ m_winner final = champion.
Proof.
  intros E. unfold simulate_region_tournament in E.
  pose proof (module_round_counts t g 4 s4 ltac:(lia) E) as L4.
  destruct (simulate_rounds_succ_inv _ _ _ E) as (s3 & E3 & R4).
  pose proof (module_round_counts t g 3 s3 ltac:(lia) E3) as L3.
  destruct (survivors_check_inv _ _ (module_survivors t g 3 s3 s4
                                       ltac:(lia) E3 R4))
    as (_ & _ & Hkeys & Hall & _ & _ & _).
  unfold new_matchups, st_log, st_state, st_heap, store_of in Hkeys, Hall.
  cbn [fst snd] in Hkeys, Hall.
  rewrite L4, L3 in Hkeys. rewrite L4 in Hall.
  change (count_at 4 - count_at 3)%nat with 1%nat in Hkeys.
  change (rounds_at (count_at 4)) with 4%nat in Hall.
  destruct (resolved s4) as [|m log] eqn:Hlog; [discriminate|].
  cbn in Hkeys.
  destruct (current_matchup_state (self s4)) as [|[champion path] [|kv rest]];
    try discriminate.
  inversion Hall as [|? ? (Hin & Hw & lst & Hh & Hlst) _]; subst.
  cbn [fst snd] in *.
  injection Hkeys as Hkeys.
  exists champion, path. repeat split; auto.
  - destruct lst; [exact Hh|cbn in Hlst; lia].
  - exists m, log. auto.
Qed.

End Survivors.

(** X2: a tournament that returns leaves exactly one seed in the current
    matchup state, the champion: it is the winner of the last matchup,
    it won four matchups, its total is four times its seed value, and
    its schedule list is empty. *)
Theorem tournament_leaves_one_champion {R : sampler} (t : table)
    (g : rng_state R) (s4 : state R) :
  simulate_region_tournament (fresh_region t g) = (inr tt, s4) ->
  exists champion path final earlier,
    current_matchup_state (self s4) = [(champion, path)] /\
    heap s4 !! path = Some [] /\
    In champion all_seeds /\
    resolved s4 = final :: earlier /\
    m_winner final = champion /\
    wins champion (resolved s4) = 4 /\
    dict_get champion (points_by_seed (self s4)) = Some (4 * champion).
Proof.
  intros E.
  destruct (module_final_state t g s4 E)
    as (champion & path & Hcms & Hh & Hin & Hw & final & earlier & Hlog & Hf).
  exists champion, path, final, earlier. repeat split; auto.
  assert (s4 = snd (simulate_rounds 4 (fresh_region t g))) as Hs4
    by (unfold simulate_region_tournament in E; now rewrite E).
  assert (dict_keys (points_by_seed (self (fresh_region t g))) = all_seeds)
    as K0 by (unfold fresh_region; rewrite new_RegionBracket_points;
              reflexivity).
  destruct (simulate_rounds_points_grow 4 _ K0) as [K4 _].
  rewrite <- Hs4 in K4.
  assert (exists a, dict_get champion (points_by_seed (self s4)) = Some a)
    as [a Ha].
  { rewrite <- K4 in Hin. unfold dict_keys in Hin.
    apply in_map_iff in Hin. destruct Hin as ([k a] & <- & Hin).
    clear - Hin. induction (points_by_seed (self s4)) as [|[k' a'] d IH];
      [destruct Hin|].
    cbn [fst dict_get]. destruct (Z.eqb_spec k' k); eauto.
    destruct Hin as [[= -> ->]|Hin]; [congruence|auto]. }
  rewrite Ha. f_equal.
  assert (scored s4) as Hsc.
  { rewrite Hs4. apply simulate_rounds_scored.
    apply new_RegionBracket_scored. }
  rewrite (Hsc champion a Ha), Hw. lia.
Qed.

Lemma tournament_leaves_one_champion_witness :
  let s4 :=
    snd (simulate_region_tournament
           (fresh_region (R := alternating_sampler) (upper_table 0.5) 0%nat)) in
  exists champion path final earlier,
    current_matchup_state (self s4) = [(champion, path)] /\
    heap s4 !! path = Some [] /\
    In champion all_seeds /\
    resolved s4 = final :: earlier /\
    m_winner final = champion /\
    wins champion (resolved s4) = 4 /\
    dict_get champion (points_by_seed (self s4)) = Some (4 * champion).
Proof.
  intros s4.
  apply (tournament_leaves_one_champion (R := alternating_sampler)
           (upper_table 0.5) 0%nat s4).
  vm_compute. reflexivity.
Defined.

(** X3: an instance is used up by its tournament.  After a tournament
    that returned, a further round, and so a second call of
    [simulate_region_tournament], raises the [IndexError] of [pop] on the
    champion's empty schedule and changes nothing. *)
Theorem second_tournament_raises_index_error {R : sampler} (t : table)
    (g : rng_state R) (s4 : state R) :
  simulate_region_tournament (fresh_region t g) = (inr tt, s4) ->
  simulate_round_and_update_current_state s4 = (inl PopFromEmptyList, s4) /\
  simulate_region_tournament s4 = (inl PopFromEmptyList, s4).
Proof.
  intros E.
  destruct (module_final_state t g s4 E)
    as (champion & path & Hcms & Hh & _).
  assert (simulate_round_and_update_current_state s4
          = (inl PopFromEmptyList, s4)) as Hround.
  { rewrite simulate_round_unfold, Hcms. cbn [for_items]. unfold bind.
    rewrite loop_body_unfold by reflexivity. now rewrite Hh. }
  split; [exact Hround|].
  unfold simulate_region_tournament. cbn [simulate_rounds]. unfold bind.
  now rewrite Hround.
Qed.

Lemma second_tournament_raises_index_error_witness :
  let s4 :=
    snd (simulate_region_tournament
           (fresh_region (R := alternating_sampler) (upper_table 0.5) 0%nat)) in
  simulate_round_and_update_current_state s4 = (inl PopFromEmptyList, s4) /\
  simulate_region_tournament s4 = (inl PopFromEmptyList, s4).
Proof.
  intros s4.
  apply (second_tournament_raises_index_error (R := alternating_sampler)
           (upper_table 0.5) 0%nat s4).
  vm_compute. reflexivity.
Defined.

(** X4: in each round of a run over the module's schedule every seed
    still alive plays exactly one matchup: the primary seeds of the
    round's matchups, in the order played, followed by their opponents in
    reverse order, are the seeds alive before the round, none twice (so
    the i-th alive seed meets the i-th from the end).  The seeds alive
    after the round are the winners, in the order played. *)
Theorem round_plays_every_alive_seed_once {R : sampler} (t : table)
    (g : rng_state R) (k : nat) (sk sk1 : state R) :
  (k < 4)%nat ->
  simulate_rounds k (fresh_region t g) = (inr tt, sk) ->
  simulate_round_and_update_current_state sk = (inr tt, sk1) ->
  exists played,
    resolved sk1 = rev played ++ resolved sk /\
    length played = (2 ^ (3 - k))%nat /\
    NoDup (alive_of (store_of sk)) /\
    map m_seed played ++ rev (map m_opponent played) = alive_of (store_of sk) /\
    alive_of (store_of sk1) = map m_winner played /\
    Forall (fun m => m_winner m = m_seed m \/ m_winner m = m_opponent m)
      played.
Proof.
  intros Hk Ek Er.
  destruct (round_new_matchups sk sk1 Er) as (new & Hnew & Hrev).
  destruct (survivors_check_inv _ _ (module_survivors t g k sk sk1 Hk Ek Er))
    as (Hnd & Hpairs & Hkeys & _ & _ & _ & _).
  destruct (module_rounds t g) as [Hcheck _].
  destruct (round_check_inv _ _ (Hcheck k sk sk1 Hk Ek Er))
    as (_ & Hslots & _).
  rewrite Hrev in Hpairs, Hkeys, Hslots.
  pose proof (module_round_counts t g k sk ltac:(lia) Ek) as Lk.
  assert (simulate_rounds (S k) (fresh_region t g) = (inr tt, sk1)) as Ek1
    by (rewrite simulate_rounds_succ, Ek; exact Er).
  pose proof (module_round_counts t g (S k) sk1 ltac:(lia) Ek1) as Lk1.
  exists (rev new). rewrite rev_involutive.
  split; [exact Hnew|].
  split; [|split; [exact Hnd|split; [exact Hpairs|split]]].
  - rewrite length_rev.
    rewrite Hnew, length_app, Lk in Lk1.
    destruct k as [|[|[|[|k]]]]; cbn in Lk1 |- *; lia.
  - unfold alive_of, st_log, st_state, store_of in *. cbn [fst snd] in *.
    destruct (resolved sk1) as [|m l] eqn:Hl; [|exact Hkeys].
    destruct k as [|[|[|[|k]]]]; cbn in Lk1; lia.
  - apply List.Forall_forall. intros m Hm.
    rewrite List.Forall_forall in Hslots. specialize (Hslots m Hm).
    unfold inherits_slotb in Hslots.
    repeat match type of Hslots with
           | match ?x with _ => _ end = true =>
               destruct x; try discriminate
           end.
    repeat (apply andb_prop in Hslots; destruct Hslots as [Hslots ?]).
    match goal with
    | H : (_ || _) = true |- _ =>
        apply orb_prop in H; destruct H as [H|H]; apply Z.eqb_eq in H; auto
    end.
Qed.

Lemma round_plays_every_alive_seed_once_witness :
  let s0 := fresh_region (R := alternating_sampler) (upper_table 0.5) 0%nat in
  let sk := snd (simulate_rounds 1 s0) in
  let sk1 := snd (simulate_rounds 2 s0) in
  exists played,
    resolved sk1 = rev played ++ resolved sk /\
    length played = (2 ^ (3 - 1))%nat /\
    NoDup (alive_of (store_of sk)) /\
    map m_seed played ++ rev (map m_opponent played) = alive_of (store_of sk) /\
    alive_of (store_of sk1) = map m_winner played /\
    Forall (fun m => m_winner m = m_seed m \/ m_winner m = m_opponent m)
      played.
Proof.
  intros s0 sk sk1.
  apply (round_plays_every_alive_seed_once (R := alternating_sampler)
           (upper_table 0.5) 0%nat 1%nat sk sk1).
  - lia.
  - vm_compute. reflexivity.
  - vm_compute. reflexivity.
Defined.

(** X5: a seed that lost a matchup takes part in no later matchup of the
    run: in the record after any number of rounds, no matchup played
    after [m] has the loser of [m] as its primary seed or its opponent. *)
Theorem eliminated_seed_never_plays_again {R : sampler} (t : table)
    (g : rng_state R) (n : nat) (s : state R)
    (later earlier : list matchup) (m : matchup) :
  (n <= 4)%nat ->
  simulate_rounds n (fresh_region t g) = (inr tt, s) ->
  resolved s = later ++ m :: earlier ->
  (loser m = m_seed m \/ loser m = m_opponent m) /\
  loser m <> m_winner m /\
  Forall (fun m' => m_seed m' <> loser m /\ m_opponent m' <> loser m) later.
Proof.
  intros Hn E Hlog.
  destruct n as [|k].
  { cbn in E. injection E as <-. destruct later; discriminate. }
  destruct (simulate_rounds_succ_inv _ _ _ E) as (sk & Ek & Er).
  destruct (survivors_check_inv _ _ (module_survivors t g k sk s
                                       ltac:(lia) Ek Er))
    as (_ & _ & _ & _ & Hdec & Hout & _).
  unfold st_log, store_of in Hdec, Hout. cbn [snd] in Hdec, Hout.
  rewrite List.Forall_forall in Hdec.
  destruct (decided_loser m) as [Hl Hw].
  { apply Hdec. rewrite Hlog. apply in_or_app. right. now left. }
  split; [exact Hl|]. split; [exact Hw|].
  eapply losers_stay_out_sound; eauto.
Qed.

Lemma eliminated_seed_never_plays_again_witness :
  let s :=
    snd (simulate_region_tournament
           (fresh_region (R := alternating_sampler) (upper_table 0.5) 0%nat)) in
  let m := {| m_seed := 2; m_opponent := 15; m_winner := 15 |} in
  let later := take 13 (resolved s) in
  (loser m = m_seed m \/ loser m = m_opponent m) /\
  loser m <> m_winner m /\
  Forall (fun m' => m_seed m' <> loser m /\ m_opponent m' <> loser m) later.
Proof.
  intros s m later.
  apply (eliminated_seed_never_plays_again (R := alternating_sampler)
           (upper_table 0.5) 0%nat 4%nat s later (drop 14 (resolved s)) m).
  - lia.
  - vm_compute. reflexivity.
  - vm_compute. reflexivity.
Defined.

(** X6: a seed wins at most one matchup per round: after [n] rounds of a
    run over the module's schedule, the total of every seed is its seed
    value times a number of wins between 0 and [n]. *)
Theorem points_bounded_by_rounds {R : sampler} (t : table)
    (g : rng_state R) (n : nat) (s : state R) :
  (n <= 4)%nat ->
  simulate_rounds n (fresh_region t g) = (inr tt, s) ->
  Forall
    (fun k =>
       0 <= wins k (resolved s) <= Z.of_nat n /\
       dict_get k (points_by_seed (self s)) = Some (k * wins k (resolved s)))
    all_seeds.
Proof.
  intros Hn E.
  assert (Forall (fun k => wins k (resolved s) <= Z.of_nat n) all_seeds)
    as Hle.
  { destruct n as [|k].
    - assert (s = fresh_region t g) as -> by (cbn in E; now injection E).
      apply List.Forall_forall. intros k _.
      unfold fresh_region. now rewrite new_RegionBracket_resolved.
    - destruct (simulate_rounds_succ_inv _ _ _ E) as (sk & Ek & Er).
      destruct (survivors_check_inv _ _ (module_survivors t g k sk s
                                           ltac:(lia) Ek Er))
        as (_ & _ & _ & _ & _ & _ & Hw).
      unfold st_log, store_of in Hw. cbn [snd] in Hw.
      rewrite (module_round_counts t g (S k) s Hn E) in Hw.
      replace (rounds_at (count_at (S k))) with (S k) in Hw; [exact Hw|].
      destruct k as [|[|[|[|k]]]]; try reflexivity. lia. }
  assert (s = snd (simulate_rounds n (fresh_region t g))) as Hs
    by now rewrite E.
  assert (dict_keys (points_by_seed (self (fresh_region t g))) = all_seeds)
    as K0 by (unfold fresh_region; rewrite new_RegionBracket_points;
              reflexivity).
  destruct (simulate_rounds_points_grow n _ K0) as [_ G].
  rewrite <- Hs in G.
  assert (scored s) as Hsc.
  { rewrite Hs. apply simulate_rounds_scored. apply new_RegionBracket_scored. }
  rewrite List.Forall_forall in Hle. apply List.Forall_forall. intros k Hk.
  split; [split; [unfold wins; lia|auto]|].
  destruct (G k 0) as (a & Ha & _).
  { unfold fresh_region. rewrite new_RegionBracket_points.
    unfold all_seeds in Hk. simpl in Hk.
    repeat (destruct Hk as [<-|Hk]; [reflexivity|]). destruct Hk. }
  rewrite Ha. f_equal. now apply Hsc.
Qed.

Lemma points_bounded_by_rounds_witness :
  let s :=
    snd (simulate_rounds 3
           (fresh_region (R := alternating_sampler) (upper_table 0.5) 0%nat)) in
  Forall
    (fun k =>
       0 <= wins k (resolved s) <= Z.of_nat 3 /\
       dict_get k (points_by_seed (self s)) = Some (k * wins k (resolved s)))
    all_seeds.
Proof.
  intros s.
  apply (points_bounded_by_rounds (R := alternating_sampler)
           (upper_table 0.5) 0%nat 3%nat s).
  - lia.
  - vm_compute. reflexivity.
Defined.

(** ** What a run over the module's schedule can raise *)

Section Raising.

Context {R : sampler}.
Implicit Types (s : state R) (so : state oracle) (v : locals).

(** A loop that follows explored paths and raises was stopped by the
    table. *)
Lemma explore_items_raises items v s so k e s' :
  explore_items items v so k = true ->
  store_of s = store_of so ->
  for_items items v s = (inl e, s') ->
  table_error (win_probability_dictionary (self s)) e.
Proof.
  revert v s so.
  induction items as [|[seed path] items IH]; intros v s so Hx Hst E.
  { discriminate. }
  cbn [explore_items] in Hx.
  destruct (contains seed (visited v)) eqn:Hv.
  { rewrite for_items_cons_visited in E by assumption.
    now apply (IH v s so). }
  cbn [forallb] in Hx.
  apply andb_prop in Hx. destruct Hx as [Htrue Hx].
  apply andb_prop in Hx. destruct Hx as [Hfalse _].
  pose proof (fun b : bool =>
                explore_step seed path v so items k b Hv
                  (if b return
                      (match loop_body seed path v
                               (with_rng (R := oracle) [b] so) with
                       | (inr v', s') =>
                           last_matchup_valid s' && explore_items items v' s' k
                       | (inl _, _) => false
                       end = true)
                   then Htrue else Hfalse)) as Hstep.
  clear Htrue Hfalse.
  injection Hst as Hheap Hspd Hpts Hcms Hlog.
  cbn [for_items] in E. unfold bind in E.
  rewrite loop_body_unfold in E by assumption.
  destruct (Hstep true) as (d & rest & o & _ & Hh & Ho & Hs & Hopp & Hne & _).
  rewrite Hheap, Hh in E. cbv zeta in E. rewrite Hcms, Ho in E.
  destruct (extract_win_probability_by_seed
              (win_probability_dictionary (self s)) seed o) as [e0|p] eqn:Hp.
  { injection E as <- _.
    pose proof (lookup_raises_only_missing _ _ _ _ Hp) as ->.
    apply lookup_missing_iff in Hp.
    exists seed, o. repeat split; auto. }
  destruct (valid_probability p) eqn:Hval.
  2:{ injection E as <- _. exists seed, o. repeat split; auto.
      right. split; auto. exists p. auto. }
  destruct (Hstep (fst (binomial R p (rng s))))
    as (d' & rest' & o' & old & Hh' & Ho' & _ & _ & _ & Hold & Hnext).
  rewrite Hh in Hh'. injection Hh' as <- <-.
  rewrite Ho in Ho'. injection Ho' as <-.
  rewrite Hpts, Hold in E.
  set (W := if fst (binomial R p (rng s)) then seed else o) in *.
  set (g' := snd (binomial R p (rng s))) in *.
  set (v1 := resolved_locals
               (choose_opponent
                  (dict_keys (current_matchup_state (self so))) d v) path W)
    in *.
  set (m := {| m_seed := seed; m_opponent := o; m_winner := W |}) in *.
  apply (IH v1 (resolved_state s path rest g' m old)
           (resolved_state
              (with_rng (R := oracle) [fst (binomial R p (rng s))] so)
              path rest [] m old) Hnext); [|exact E].
  unfold store_of, resolved_state, with_points.
  cbn [heap self seed_path_dictionary points_by_seed current_matchup_state
       resolved with_rng].
  now rewrite Hheap, Hspd, Hpts, Hcms, Hlog.
Qed.

Lemma explore_rounds_raises check (n : nat) s so e s' :
  explore_rounds check n so = true ->
  store_of s = store_of so ->
  simulate_rounds n s = (inl e, s') ->
  table_error (win_probability_dictionary (self s)) e.
Proof.
  revert s so. induction n as [|n IH]; intros s so Hx Hst E; [discriminate|].
  cbn [explore_rounds] in Hx.
  cbn [simulate_rounds] in E. unfold bind in E.
  destruct (simulate_round_and_update_current_state s) as [[e1|[]] s1] eqn:Er.
  - injection E as <- _.
    rewrite simulate_round_unfold in Er.
    destruct (for_items (current_matchup_state (self s)) initial_locals s)
      as [[e2|v2] s2] eqn:Ef; [|discriminate].
    injection Er as <- _.
    unfold explore_round in Hx.
    assert (current_matchup_state (self s) = current_matchup_state (self so))
      as Hcms by (now injection Hst).
    rewrite <- Hcms in Hx.
    exact (explore_items_raises _ _ _ _ _ _ _ Hx Hst Ef).
  - destruct (explore_round_sound s so _ Hx Hst) as [H1 _].
    destruct (H1 s1 Er) as (Ht & so1 & Hst1 & Hc).
    apply andb_prop in Hc. destruct Hc as [_ Hc].
    rewrite <- Ht. exact (IH s1 so1 Hc Hst1 E).
Qed.

End Raising.

(** X7: whatever the table and the generator, a tournament over the
    module's schedule raises no [IndexError], [UnboundLocalError] or
    [KeyError]: when it raises, it is for a matchup of two different
    seeds of the region, either because the table has the pair in
    neither direction, or because the value it has for the pair is not a
    probability. *)
Theorem tournament_errors_come_from_table {R : sampler} (t : table)
    (g : rng_state R) (e : exception) (s' : state R) :
  simulate_region_tournament (fresh_region t g) = (inl e, s') ->
  exists a b,
    In a all_seeds /\ In b all_seeds /\ a <> b /\
    ((e = MatchupProbabilityMissing a b /\
      entry t a b = None /\ entry t b a = None) \/
     (e = BinomialProbabilityInvalid /\
      exists p, extract_win_probability_by_seed t a b = inr p /\
                valid_probability p = false)).
Proof.
  intros E.
  exact (explore_rounds_raises round_check 4 (fresh_region t g)
           (fresh_region (R := oracle) full_table []) e s'
           module_bracket_explored eq_refl E).
Qed.

Lemma tournament_errors_come_from_table_witness :
  exists a b,
    In a all_seeds /\ In b all_seeds /\ a <> b /\
    ((BinomialProbabilityInvalid = MatchupProbabilityMissing a b /\
      entry (upper_table 1.5) a b = None /\
      entry (upper_table 1.5) b a = None) \/
     (BinomialProbabilityInvalid = BinomialProbabilityInvalid /\
      exists p,
        extract_win_probability_by_seed (upper_table 1.5) a b = inr p /\
        valid_probability p = false)).
Proof.
  apply (tournament_errors_come_from_table (R := alternating_sampler)
           (upper_table 1.5) 0%nat BinomialProbabilityInvalid
           (snd (simulate_region_tournament
                   (fresh_region (R := alternating_sampler)
                      (upper_table 1.5) 0%nat)))).
  vm_compute. reflexivity.
Defined.

(** X8: a value of the table that is not a probability (below 0, above 1
    or NaN, directly or as the complement [1.0 - p]) is only noticed when
    its matchup is played: [np.random.binomial] raises [ValueError]
    after the schedule lost its head; the generator is not advanced, no
    total changes and no matchup is recorded. *)
Theorem invalid_probability_raises_value_error {R : sampler}
    (seed : Z) (matchup_path : loc) (v : locals) (s : state R)
    (d : descriptor) (rest : list descriptor) (o : Z) (p : float) :
  contains seed (visited v) = false ->
  heap s !! matchup_path = Some (d :: rest) ->
  current_opponent
    (choose_opponent (dict_keys (current_matchup_state (self s))) d v)
    = Some o ->
  extract_win_probability_by_seed (win_probability_dictionary (self s)) seed o
    = inr p ->
  ((0 <=? p)%float && (p <=? 1)%float) = false ->
  loop_body seed matchup_path v s
  = (inl BinomialProbabilityInvalid,
     with_heap (<[matchup_path := rest]> (heap s)) s).
Proof.
  intros Hv Hh Ho Hp Hval.
  rewrite loop_body_unfold by assumption.
  rewrite Hh. cbv zeta. rewrite Ho, Hp.
  unfold valid_probability. now rewrite Hval.
Qed.

Lemma invalid_probability_raises_value_error_witness :
  let s := fresh_region (R := alternating_sampler)
             [(16, [(1, 1.25%float)])] 0%nat in
  loop_body 1 8%nat initial_locals s
  = (inl BinomialProbabilityInvalid,
     with_heap
       (<[8%nat := [Candidates [8; 9]; Candidates [4; 5; 12; 13];
                    Candidates [2; 3; 6; 7; 10; 11; 14; 15]]]> (heap s)) s).
Proof.
  intros s.
  apply (invalid_probability_raises_value_error (R := alternating_sampler)
           1 8%nat initial_locals s (Single 16)
           [Candidates [8; 9]; Candidates [4; 5; 12; 13];
            Candidates [2; 3; 6; 7; 10; 11; 14; 15]] 16 (1 - 1.25)%float);
    reflexivity.
Defined.

(** ** Entries stored in both directions *)

(** X9: a pair stored in both directions is never complemented: each
    lookup returns the entry of its own direction, whatever the other
    one is, so the two results need not add up to one. *)
Theorem lookup_prefers_direct_entry (t : table) (a b : Z) (p q : float) :
  entry t a b = Some p ->
  entry t b a = Some q ->
  extract_win_probability_by_seed t a b = inr p /\
  extract_win_probability_by_seed t b a = inr q.
Proof.
  intros Hab Hba. rewrite !extract_by_entries, Hab, Hba. auto.
Qed.

Lemma lookup_prefers_direct_entry_witness :
  extract_win_probability_by_seed
    [(1, [(16, 0.99%float)]); (16, [(1, 0.25%float)])] 1 16 = inr 0.99%float /\
  extract_win_probability_by_seed
    [(1, [(16, 0.99%float)]); (16, [(1, 0.25%float)])] 16 1 = inr 0.25%float.
Proof.
  apply (lookup_prefers_direct_entry
           [(1, [(16, 0.99%float)]); (16, [(1, 0.25%float)])] 1 16
           0.99%float 0.25%float); reflexivity.
Defined.

(** ** Edge cases of an iteration *)

Section IterationEdges.

Context {R : sampler}.
Implicit Types (s : state R) (v : locals).

Lemma find_no_candidate (keys possible_opponents : list Z) :
  (forall c, In c possible_opponents -> contains c keys = false) ->
  find (fun possible_opponent => contains possible_opponent keys)
    possible_opponents = None.
Proof.
  induction possible_opponents as [|c cs IH]; intros H; [reflexivity|].
  cbn [find]. rewrite (H c) by now left. apply IH. intros c' Hc'.
  apply H. now right.
Qed.

(** An iteration only assigns the points, the heap, the generator and
    the record: the three dictionaries of the instance stay in place. *)
Lemma loop_body_keeps_dictionaries seed (path : loc) v s :
  let s' := snd (loop_body seed path v s) in
  current_matchup_state (self s') = current_matchup_state (self s) /\
  seed_path_dictionary (self s') = seed_path_dictionary (self s) /\
  win_probability_dictionary (self s') = win_probability_dictionary (self s).
Proof.
  cbv zeta.
  destruct (contains seed (visited v)) eqn:Hv.
  { rewrite loop_body_visited by assumption. auto. }
  rewrite loop_body_unfold by assumption.
  destruct (heap s !! path) as [[|d rest]|]; auto.
  cbv zeta.
  destruct (current_opponent _) as [o|]; auto.
  destruct (extract_win_probability_by_seed _ seed o) as [e|p]; auto.
  destruct (valid_probability p); auto.
  destruct (dict_get _ (points_by_seed (self s))) as [old|]; auto.
Qed.

Lemma for_items_keeps_dictionaries items v s :
  let s' := snd (for_items items v s) in
  current_matchup_state (self s') = current_matchup_state (self s) /\
  seed_path_dictionary (self s') = seed_path_dictionary (self s) /\
  win_probability_dictionary (self s') = win_probability_dictionary (self s).
Proof.
  revert v s. induction items as [|[seed path] items IH]; intros v s.
  - cbn. auto.
  - cbv zeta. cbn [for_items]. unfold bind.
    pose proof (loop_body_keeps_dictionaries seed path v s) as H.
    destruct (loop_body seed path v s) as [[e|v1] s1]; cbn [snd] in *; auto.
    destruct H as (A & B & C).
    destruct (IH v1 s1) as (A' & B' & C'). repeat split; congruence.
Qed.

End IterationEdges.

(** X10: when the descriptor popped is a tuple and none of its members is
    a key of the current matchup state, [current_opponent] is not
    assigned in this iteration.  In the first iteration of a round that
    reaches it the read raises [UnboundLocalError], the schedule having
    lost its head; later in a round the matchup is played against the
    opponent of the previous matchup, exactly as if the descriptor had
    been that seed as an [int], and nobody is marked visited. *)
Theorem unmatched_candidates_reuse_previous_opponent {R : sampler}
    (seed : Z) (matchup_path : loc) (v : locals) (s : state R)
    (possible_opponents : list Z) (rest : list descriptor) :
  contains seed (visited v) = false ->
  heap s !! matchup_path = Some (Candidates possible_opponents :: rest) ->
  (forall c, In c possible_opponents ->
     contains c (dict_keys (current_matchup_state (self s))) = false) ->
  match current_opponent v with
  | None =>
      loop_body seed matchup_path v s
      = (inl CurrentOpponentUnbound,
         with_heap (<[matchup_path := rest]> (heap s)) s)
  | Some previous =>
      loop_body seed matchup_path v s
      = loop_body seed matchup_path v
          (with_heap (<[matchup_path := Single previous :: rest]> (heap s)) s)
  end.
Proof.
  intros Hv Hh Hnone.
  assert (matchup_path < length (heap s))%nat as Hlt
    by (eapply lookup_lt_Some; eauto).
  rewrite (loop_body_unfold seed matchup_path v s Hv).
  rewrite Hh. cbv zeta. cbn [choose_opponent].
  rewrite find_no_candidate by assumption.
  destruct (current_opponent v) as [previous|] eqn:Hprev; [|reflexivity].
  rewrite (loop_body_unfold seed matchup_path v
             (with_heap (<[matchup_path := Single previous :: rest]> (heap s))
                s) Hv).
  assert (<[matchup_path := Single previous :: rest]> (heap s) !! matchup_path
          = Some (Single previous :: rest)) as Hhead
    by (apply list_lookup_insert_eq; exact Hlt).
  assert (<[matchup_path := rest]>
            (<[matchup_path := Single previous :: rest]> (heap s))
          = <[matchup_path := rest]> (heap s)) as Hpop
    by apply list_insert_insert_eq.
  cbn [with_heap heap]. rewrite Hhead.
  cbv zeta. cbn [choose_opponent current_opponent self rng].
  unfold resolved_state, resolved_locals, with_heap, with_rng.
  cbn [heap self rng resolved updated_matchup_state visited current_opponent].
  rewrite Hpop, Hprev.
  reflexivity.
Qed.

Lemma unmatched_candidates_reuse_previous_opponent_witness :
  let s :=
    new_RegionBracket (R := alternating_sampler) [(1, 0%nat); (3, 1%nat)]
      (upper_table 0.5) [[Single 2]; [Candidates [9; 10]]] 0%nat in
  let v := {| updated_matchup_state := [(1, 2%nat)]; visited := [];
              current_opponent := Some 2 |} in
  loop_body 3 3%nat v s
  = loop_body 3 3%nat v (with_heap (<[3%nat := [Single 2]]> (heap s)) s).
Proof.
  intros s v.
  apply (unmatched_candidates_reuse_previous_opponent (R := alternating_sampler)
           3 3%nat v s [9; 10] []).
  - reflexivity.
  - reflexivity.
  - intros c [<-|[<-|[]]]; reflexivity.
Defined.

(** X11: [points_by_seed] has the keys 1 to 16 only.  When the winner of a
    matchup is any other seed (a schedule may name one), the update of
    its total raises [KeyError]: the schedule has lost its head and the
    outcome was drawn, but no total changes and no matchup is recorded. *)
Theorem winner_outside_region_raises_key_error {R : sampler}
    (seed : Z) (matchup_path : loc) (v : locals) (s : state R)
    (d : descriptor) (rest : list descriptor) (o : Z) (p : float) :
  contains seed (visited v) = false ->
  heap s !! matchup_path = Some (d :: rest) ->
  current_opponent
    (choose_opponent (dict_keys (current_matchup_state (self s))) d v)
    = Some o ->
  extract_win_probability_by_seed (win_probability_dictionary (self s)) seed o
    = inr p ->
  valid_probability p = true ->
  dict_keys (points_by_seed (self s)) = all_seeds ->
  let winning_seed := if fst (binomial R p (rng s)) then seed else o in
  ~ In winning_seed all_seeds ->
  loop_body seed matchup_path v s
  = (inl (KeyError winning_seed),
     with_rng (snd (binomial R p (rng s)))
       (with_heap (<[matchup_path := rest]> (heap s)) s)).
Proof.
  intros Hv Hh Ho Hp Hval Hkeys W HW.
  rewrite loop_body_unfold by assumption.
  rewrite Hh. cbv zeta. rewrite Ho, Hp, Hval. fold W.
  destruct (dict_get W (points_by_seed (self s))) as [old|] eqn:Hold;
    [|reflexivity].
  exfalso. apply HW. rewrite <- Hkeys. eapply dict_get_Some_key; eauto.
Qed.

Lemma winner_outside_region_raises_key_error_witness :
  let s :=
    new_RegionBracket (R := alternating_sampler) [(17, 0%nat)]
      [(17, [(18, 0.5%float)])] [[Single 18]] 0%nat in
  loop_body 17 1%nat initial_locals s
  = (inl (KeyError 17),
     with_rng (R := alternating_sampler) 1%nat
       (with_heap (<[1%nat := []]> (heap s)) s)).
Proof.
  intros s.
  apply (winner_outside_region_raises_key_error (R := alternating_sampler)
           17 1%nat initial_locals s (Single 18) [] 18 0.5%float).
  - reflexivity.
  - reflexivity.
  - reflexivity.
  - reflexivity.
  - reflexivity.
  - reflexivity.
  - vm_compute. intuition discriminate.
Defined.

(** X12: a round that raises does not advance the instance: the current
    matchup state is still the dictionary of the start of the round (it
    is only replaced after the loop), and so are the two input
    dictionaries; the record keeps the matchups resolved before the
    failure. *)
Theorem raising_round_keeps_matchup_state {R : sampler} (s s' : state R)
    (e : exception) :
  simulate_round_and_update_current_state s = (inl e, s') ->
  current_matchup_state (self s') = current_matchup_state (self s) /\
  seed_path_dictionary (self s') = seed_path_dictionary (self s) /\
  win_probability_dictionary (self s') = win_probability_dictionary (self s) /\
  exists resolved_before_failure,
    resolved s' = resolved_before_failure ++ resolved s.
Proof.
  intros E.
  pose proof (simulate_round_log_grows s) as (_ & new & Hnew & _).
  rewrite E in Hnew. cbn [snd] in Hnew.
  rewrite simulate_round_unfold in E.
  pose proof (for_items_keeps_dictionaries
                (current_matchup_state (self s)) initial_locals s) as H.
  destruct (for_items _ _ s) as [[e'|v1] s1]; [|discriminate].
  injection E as _ <-. cbn [snd] in H.
  destruct H as (A & B & C). repeat split; auto. eauto.
Qed.

Lemma raising_round_keeps_matchup_state_witness :
  let s := fresh_region (R := alternating_sampler) [(1, [(16, 0.5%float)])]
             0%nat in
  let s' := snd (simulate_round_and_update_current_state s) in
  current_matchup_state (self s') = current_matchup_state (self s) /\
  seed_path_dictionary (self s') = seed_path_dictionary (self s) /\
  win_probability_dictionary (self s') = win_probability_dictionary (self s) /\
  exists resolved_before_failure,
    resolved s' = resolved_before_failure ++ resolved s.
Proof.
  intros s s'.
  apply (raising_round_keeps_matchup_state (R := alternating_sampler) s s'
           (MatchupProbabilityMissing 2 15)).
  vm_compute. reflexivity.
Defined.

(** ** The copy made at construction *)

Lemma dict_keys_set_absent {V} (k : Z) (v : V) (d : dict V) :
  ~ In k (dict_keys d) -> dict_keys (dict_set k v d) = dict_keys d ++ [k].
Proof.
  unfold dict_keys.
  induction d as [|[k' v'] d IH]; intros H; [reflexivity|].
  cbn [dict_set map fst] in *.
  destruct (Z.eqb_spec k' k) as [->|Hne]; [exfalso; apply H; now left|].
  cbn [map fst app]. f_equal. apply IH. intros Hin. apply H. now right.
Qed.

Lemma dict_get_In_NoDup {V} (k : Z) (v : V) (d : dict V) :
  NoDup (dict_keys d) -> In (k, v) d -> dict_get k d = Some v.
Proof.
  unfold dict_keys.
  induction d as [|[k' v'] d IH]; intros Hnd Hin; [destruct Hin|].
  cbn [map fst] in Hnd. apply NoDup_cons in Hnd. destruct Hnd as [Hk' Hnd].
  cbn [dict_get]. destruct Hin as [[= -> ->]|Hin].
  - now rewrite Z.eqb_refl.
  - destruct (Z.eqb_spec k' k) as [->|Hne]; [|auto].
    exfalso. apply Hk'. apply list_elem_of_In.
    change k with (fst (k, v)). now apply in_map.
Qed.

(** [deepcopy] keeps the keys and their order, and maps each key to a
    new list object that holds what the original object holds.  [h0] is
    the heap before the copy. *)
Lemma deepcopy_items_content (h0 : heap_t) items memo h y :
  (exists ext, h = h0 ++ ext) ->
  Forall (fun kv => (snd kv < length h0)%nat) items ->
  Forall (fun p => (fst p < length h0)%nat /\ (length h0 <= snd p)%nat /\
                   h !! snd p = h0 !! fst p) memo ->
  NoDup (dict_keys y ++ dict_keys items) ->
  (exists ext, snd (deepcopy_items items memo h y) = h ++ ext) /\
  dict_keys (fst (deepcopy_items items memo h y))
  = dict_keys y ++ dict_keys items /\
  (forall k, ~ In k (dict_keys items) ->
     dict_get k (fst (deepcopy_items items memo h y)) = dict_get k y) /\
  (forall k l, In (k, l) items ->
     exists l',
       dict_get k (fst (deepcopy_items items memo h y)) = Some l' /\
       (length h0 <= l')%nat /\
       snd (deepcopy_items items memo h y) !! l' = h0 !! l).
Proof.
  revert memo h y.
  induction items as [|[key l] items IH]; intros memo h y Hext Hwf Hmemo Hnd.
  { cbn. split; [exists []; now rewrite app_nil_r|].
    split; [now rewrite app_nil_r|]. split; [auto|]. intros k l []. }
  inversion Hwf as [|? ? Hl Hwf']; subst. cbn [snd] in Hl.
  assert (~ In key (dict_keys y) /\ ~ In key (dict_keys items) /\
          NoDup (dict_keys y ++ [key] ++ dict_keys items)) as (Hy & Hi & Hnd').
  { unfold dict_keys in *. cbn [map fst] in Hnd.
    apply NoDup_app in Hnd. destruct Hnd as (N1 & N2 & N3).
    apply NoDup_cons in N3. destruct N3 as [N3 N4].
    split; [|split].
    - intros Hin. apply (N2 key); [now apply list_elem_of_In|left].
    - intros Hin. apply N3. now apply list_elem_of_In.
    - apply NoDup_app. split; [exact N1|]. split; [exact N2|].
      apply NoDup_cons. auto. }
  assert (forall l', dict_keys (dict_set key l' y) ++ dict_keys items
                     = dict_keys y ++ dict_keys ((key, l) :: items)) as Hkeys.
  { intros l'. rewrite dict_keys_set_absent by assumption.
    now rewrite <- List.app_assoc. }
  cbn [deepcopy_items].
  match goal with
  | |- context [find ?f memo] => destruct (find f memo) as [[l0 l']|] eqn:Hf
  end.
  - apply find_some in Hf. destruct Hf as [Hin Heq].
    cbn [fst] in Heq. apply Nat.eqb_eq in Heq. subst l0.
    rewrite List.Forall_forall in Hmemo.
    destruct (Hmemo _ Hin) as (_ & Hl' & Hc). cbn [fst snd] in Hl', Hc.
    match goal with
    | |- context [deepcopy_items items ?m ?hh ?yy] =>
        destruct (IH m hh yy) as (E & K & O & C); auto
    end.
    { now apply List.Forall_forall. }
    { now rewrite Hkeys. }
    split; [exact E|]. split; [now rewrite K, Hkeys|]. split.
    + intros k Hk. rewrite O.
      * apply dict_get_set_ne. intros ->. apply Hk. now left.
      * intros Hin'. apply Hk. now right.
    + intros k l1 [[= -> ->]|Hin1]; [|now apply C].
      exists l'. rewrite O by assumption. rewrite dict_get_set_eq.
      split; auto. split; auto.
      destruct E as (ext & ->).
      assert (l' < length h)%nat as Hlt.
      { apply lookup_lt_is_Some. rewrite Hc. apply lookup_lt_is_Some_2.
        exact Hl. }
      etransitivity; [apply lookup_app_l; exact Hlt|exact Hc].
  - destruct Hext as (ext0 & ->).
    assert ((h0 ++ ext0) !! l = h0 !! l) as Hsrc
      by (apply lookup_app_l; exact Hl).
    destruct (lookup_lt_is_Some_2 h0 l Hl) as [x Hx].
    match goal with
    | |- context [default [] ?a] =>
        replace a with (Some x)
          by (symmetry; etransitivity; [exact Hsrc|exact Hx])
    end.
    cbn [default from_option id].
    assert ((((h0 ++ ext0) ++ [x]) : heap_t) !! length (h0 ++ ext0) = Some x)
      as Hnew.
    { etransitivity; [apply lookup_app_r; lia|].
      now replace (length (h0 ++ ext0) - length (h0 ++ ext0))%nat
        with 0%nat by lia. }
    match goal with
    | |- context [deepcopy_items items ?m ?hh ?yy] =>
        destruct (IH m hh yy) as (E & K & O & C); auto
    end.
    { exists (ext0 ++ [x]). now rewrite List.app_assoc. }
    { constructor.
      - cbn [fst snd]. split; [exact Hl|].
        split; [rewrite length_app; lia|].
        etransitivity; [exact Hnew|now symmetry].
      - eapply Forall_impl; [exact Hmemo|].
        intros [a b] (Ha & Hb & Hc). cbn [fst snd] in *.
        split; [exact Ha|]. split; [exact Hb|].
        assert (b < length (h0 ++ ext0))%nat as Hlt.
        { apply lookup_lt_is_Some. rewrite Hc. apply lookup_lt_is_Some_2.
          exact Ha. }
        etransitivity; [apply lookup_app_l; exact Hlt|exact Hc]. }
    { now rewrite Hkeys. }
    split; [|split; [now rewrite K, Hkeys|split]].
    + destruct E as (ext & ->). exists ([x] ++ ext).
      now rewrite <- List.app_assoc.
    + intros k Hk. rewrite O.
      * apply dict_get_set_ne. intros ->. apply Hk. now left.
      * intros Hin'. apply Hk. now right.
    + intros k l1 [[= -> ->]|Hin1]; [|now apply C].
      exists (length (h0 ++ ext0)). rewrite O by assumption.
      rewrite dict_get_set_eq. split; auto.
      split; [rewrite length_app; lia|].
      destruct E as (ext & ->).
      etransitivity; [apply lookup_app_l|].
      { rewrite (length_app (h0 ++ ext0) [x]). cbn [length]. lia. }
      etransitivity; [exact Hnew|now symmetry].
Qed.

Section Copy.

Context {R : sampler}.

(** The instance built over heap [h]: its matchup state has the keys of
    the schedule dictionary, in order, and every key is mapped to a new
    list object with the contents of the caller's. *)
Lemma new_RegionBracket_content spd t (h : heap_t) (g : rng_state R) :
  NoDup (dict_keys spd) ->
  Forall (fun kv => (snd kv < length h)%nat) spd ->
  dict_keys (current_matchup_state (self (new_RegionBracket spd t h g)))
  = dict_keys spd /\
  forall seed l, dict_get seed spd = Some l ->
    exists l',
      dict_get seed (current_matchup_state (self (new_RegionBracket spd t h g)))
      = Some l' /\
      (length h <= l')%nat /\
      heap (new_RegionBracket spd t h g) !! l' = h !! l.
Proof.
  intros Hnd Hwf.
  destruct (deepcopy_items_content h spd [] h []) as (_ & K & _ & C); auto.
  { exists []. now rewrite app_nil_r. }
  unfold new_RegionBracket, post_init, deepcopy.
  cbn [heap self seed_path_dictionary win_probability_dictionary].
  match goal with
  | |- context [deepcopy_items ?a ?b ?c ?d] =>
      change (deepcopy_items spd [] h []) with (deepcopy_items a b c d) in K, C;
      destruct (deepcopy_items a b c d) as [y h']
  end.
  cbn [fst snd] in K, C.
  cbn [snd with_heap with_self heap self current_matchup_state].
  split; [exact K|]. intros seed l Hl. apply C.
  eapply dict_get_Some_In; eauto.
Qed.

End Copy.

(** X13: construction copies the schedule.  For a schedule dictionary
    whose lists are allocated, the current matchup state of the new
    instance has the same keys in the same order, and each key is mapped
    to a list object allocated by the construction that holds the
    elements of the caller's list for that key. *)
Theorem construction_copies_schedule {R : sampler} (spd : dict loc)
    (t : table) (h : heap_t) (g : rng_state R) :
  NoDup (dict_keys spd) ->
  Forall (fun kv => (snd kv < length h)%nat) spd ->
  let s0 := new_RegionBracket spd t h g in
  dict_keys (current_matchup_state (self s0)) = dict_keys spd /\
  forall seed l, dict_get seed spd = Some l ->
    exists l',
      dict_get seed (current_matchup_state (self s0)) = Some l' /\
      (length h <= l')%nat /\
      heap s0 !! l' = h !! l.
Proof. intros Hnd Hwf. now apply new_RegionBracket_content. Qed.

Lemma module_seed_paths_NoDup : NoDup (dict_keys module_seed_paths).
Proof. apply nodupb_NoDup. reflexivity. Qed.

Lemma module_seed_paths_allocated :
  Forall (fun kv => (snd kv < length module_heap)%nat) module_seed_paths.
Proof. repeat constructor. Qed.

Lemma construction_copies_schedule_witness :
  let s0 := fresh_region (R := alternating_sampler) (upper_table 0.5) 0%nat in
  dict_keys (current_matchup_state (self s0)) = dict_keys module_seed_paths /\
  forall seed l, dict_get seed module_seed_paths = Some l ->
    exists l',
      dict_get seed (current_matchup_state (self s0)) = Some l' /\
      (length module_heap <= l')%nat /\
      heap s0 !! l' = module_heap !! l.
Proof.
  apply (construction_copies_schedule (R := alternating_sampler)
           module_seed_paths (upper_table 0.5) module_heap 0%nat).
  - exact module_seed_paths_NoDup.
  - exact module_seed_paths_allocated.
Defined.

(** X14: the caller's schedule can be used again.  After any number of
    rounds of one instance, raised or not, an instance constructed from
    the same schedule dictionary starts from the complete schedule: no
    points, the same keys, and for each key a list allocated by the new
    construction with the elements the caller's list had before the
    first construction. *)
Theorem schedule_can_be_reused {R : sampler} (spd : dict loc)
    (t t' : table) (h : heap_t) (g g' : rng_state R) (n : nat) :
  NoDup (dict_keys spd) ->
  Forall (fun kv => (snd kv < length h)%nat) spd ->
  let s := snd (simulate_rounds n (new_RegionBracket spd t h g)) in
  let s' := new_RegionBracket spd t' (heap s) g' in
  points_by_seed (self s') = map (fun k => (k, 0)) all_seeds /\
  dict_keys (current_matchup_state (self s')) = dict_keys spd /\
  forall seed l, dict_get seed spd = Some l ->
    exists l',
      dict_get seed (current_matchup_state (self s')) = Some l' /\
      (length (heap s) <= l')%nat /\
      heap s' !! l' = h !! l.
Proof.
  intros Hnd Hwf s s'.
  destruct (new_RegionBracket_frame spd t h g) as (_ & _ & (ext & E) & C).
  destruct (simulate_rounds_frame (length h) n _ C) as ((_ & _ & D) & _).
  fold s in D.
  assert (forall l, (l < length h)%nat -> heap s !! l = h !! l) as Hold.
  { intros l Hl. rewrite D, E by assumption. now apply lookup_app_l. }
  assert (Forall (fun kv => (snd kv < length (heap s))%nat) spd) as Hwf'.
  { eapply Forall_impl; [exact Hwf|]. intros [k l] Hl. cbn [snd] in *.
    apply lookup_lt_is_Some. rewrite Hold by assumption.
    now apply lookup_lt_is_Some_2. }
  destruct (new_RegionBracket_content spd t' (heap s) g' Hnd Hwf') as [K G].
  fold s' in K, G.
  split; [apply new_RegionBracket_points|]. split; [exact K|].
  intros seed l Hl. destruct (G seed l Hl) as (l' & A & N & B).
  exists l'. split; [exact A|]. split; [exact N|]. rewrite B. apply Hold.
  rewrite List.Forall_forall in Hwf.
  exact (Hwf _ (dict_get_Some_In _ _ _ Hl)).
Qed.

Lemma schedule_can_be_reused_witness :
  let s :=
    snd (simulate_rounds 4
           (fresh_region (R := alternating_sampler) (upper_table 0.5) 0%nat)) in
  let s' :=
    new_RegionBracket (R := alternating_sampler) module_seed_paths
      (upper_table 0.75) (heap s) 7%nat in
  points_by_seed (self s') = map (fun k => (k, 0)) all_seeds /\
  dict_keys (current_matchup_state (self s')) = dict_keys module_seed_paths /\
  forall seed l, dict_get seed module_seed_paths = Some l ->
    exists l',
      dict_get seed (current_matchup_state (self s')) = Some l' /\
      (length (heap s) <= l')%nat /\
      heap s' !! l' = module_heap !! l.
Proof.
  apply (schedule_can_be_reused (R := alternating_sampler)
           module_seed_paths (upper_table 0.5) (upper_table 0.75) module_heap
           0%nat 7%nat 4).
  - exact module_seed_paths_NoDup.
  - exact module_seed_paths_allocated.
Defined.

(** ** More on the discretiser *)


(** With replacement every input is matched against the whole space. *)
Lemma clip_loop_with_replacement (inputs : list float) (arr acc : list Z) :
  arr <> [] ->
  exists sel,
    clip_loop inputs true arr acc = inr (acc ++ sel) /\
    length sel = length inputs /\
    forall i value c,
      inputs !! i = Some value -> sel !! i = Some c ->
      nearest_first arr value c.
Proof.
  intros Harr. revert acc.
  induction inputs as [|value inputs IH]; intros acc.
  - exists []. cbn. rewrite app_nil_r. repeat split; auto.
    intros i value c Hi. discriminate.
  - cbn [clip_loop].
    assert (distances arr value <> []) as Hne.
    { destruct arr; [congruence|discriminate]. }
    destruct (np_argmin_first_minimum _ Hne) as (k & -> & Hk).
    pose proof (first_minimum_bound _ _ Hk) as Hkb.
    unfold distances in Hkb. rewrite length_map in Hkb.
    destruct (lookup_lt_is_Some_2 arr k Hkb) as [c Hc]. rewrite Hc.
    destruct (IH (acc ++ [c])) as (sel & E & L & P).
    exists (c :: sel). split; [|split].
    + rewrite E. f_equal. now rewrite <- List.app_assoc.
    + cbn [length]. now rewrite L.
    + intros [|i] v x Hv Hx; cbn in Hv, Hx; [|eauto].
      injection Hv as <-. injection Hx as <-.
      destruct Hk as (m & Hm & HA & HB).
      unfold distances in Hm, HA, HB.
      rewrite lookup_map, Hc in Hm. cbn in Hm. injection Hm as <-.
      exists k. split; [exact Hc|]. split.
      * intros c' Hc'. apply list_elem_of_In in Hc'.
        apply list_elem_of_lookup_1 in Hc'. destruct Hc' as [j Hj].
        apply (HA j). now rewrite lookup_map, Hj.
      * intros j c' Hjk Hj. apply (HB j); auto.
        now rewrite lookup_map, Hj.
Qed.

(** X15: with [replace=True] the search space is never reduced: on a
    non-empty space of [int64] values the discretiser returns one
    candidate per input, however many inputs there are, so a candidate
    can be returned more than once.  Each candidate returned minimizes,
    over the whole space, the distance as the code computes it, the
    binary64 number [abs(float64(candidate) - value)], and is the
    earliest in the space among those of equal computed distance; this
    is not the exact distance, since different exact distances can round
    to the same binary64 number. *)
Theorem discretizer_with_replacement_uses_whole_space
    (continuous_input_arr : list float)
    (discrete_search_space : option (list Z)) :
  let space := default SINGLE_REGION_SEARCH_SPACE discrete_search_space in
  space <> [] ->
  Forall int64 space ->
  exists output_values,
    clip_continuous_inputs_to_discrete_search_space
      continuous_input_arr discrete_search_space true = inr output_values /\
    length output_values = length continuous_input_arr /\
    forall i value c,
      continuous_input_arr !! i = Some value ->
      output_values !! i = Some c ->
      nearest_first space value c.
Proof.
  intros space Hne _.
  destruct (clip_loop_with_replacement continuous_input_arr space [] Hne)
    as (sel & E & L & P).
  exists sel. split; [|auto].
  unfold clip_continuous_inputs_to_discrete_search_space.
  destruct discrete_search_space; exact E.
Qed.

Lemma discretizer_with_replacement_uses_whole_space_witness :
  clip_continuous_inputs_to_discrete_search_space
    [2.2; 1.9; 2.4]%float (Some [1; 2]) true = inr [2; 2; 2] /\
  exists output_values,
    clip_continuous_inputs_to_discrete_search_space
      [2.2; 1.9; 2.4]%float (Some [1; 2]) true = inr output_values /\
    length output_values = 3%nat /\
    forall i value c,
      [2.2; 1.9; 2.4]%float !! i = Some value ->
      output_values !! i = Some c ->
      nearest_first [1; 2] value c.
Proof.
  split; [vm_compute; reflexivity|].
  apply (discretizer_with_replacement_uses_whole_space
           [2.2; 1.9; 2.4]%float (Some [1; 2])).
  - discriminate.
  - apply List.Forall_forall. intros c Hc. unfold int64. cbn in Hc. lia.
Defined.




(** *** A NaN input *)





(** *** Inputs that are seeds already *)

(** Among the sixteen seeds, the distance of a seed to itself is below
    its distance to any other seed. *)
Lemma seed_distances_separate :
  forallb
    (fun c =>
       forallb
         (fun c' =>
            Z.eqb c c' ||
            (distance c (float_of_int c) <? distance c' (float_of_int c))%float)
         all_seeds) all_seeds = true.
Proof. vm_compute. reflexivity. Qed.

Lemma seed_is_nearest (c c' : Z) :
  In c all_seeds -> In c' all_seeds -> c <> c' ->
  (distance c (float_of_int c) <? distance c' (float_of_int c))%float = true.
Proof.
  intros Hc Hc' Hne. pose proof seed_distances_separate as H.
  rewrite forallb_forall in H. specialize (H c Hc).
  rewrite forallb_forall in H. specialize (H c' Hc').
  apply orb_prop in H. destruct H as [H|H]; auto.
  apply Z.eqb_eq in H. contradiction.
Qed.

Lemma elem_of_delete_other (l : list Z) (k : nat) (c x : Z) :
  l !! k = Some c -> x ∈ l -> x <> c -> x ∈ delete k l.
Proof.
  revert k. induction l as [|a l IH]; intros k Hk Hx Hne; [inversion Hx|].
  destruct k as [|k]; cbn in Hk |- *.
  - injection Hk as ->. apply elem_of_cons in Hx. now destruct Hx.
  - apply elem_of_cons in Hx. apply elem_of_cons.
    destruct Hx as [->|Hx]; eauto.
Qed.

Lemma clip_loop_keeps_seeds (l : list Z) (replace : bool) (arr acc : list Z) :
  (forall c, c ∈ arr -> In c all_seeds) ->
  (forall c, c ∈ l -> c ∈ arr) ->
  (replace = false -> NoDup l) ->
  clip_loop (map float_of_int l) replace arr acc = inr (acc ++ l).
Proof.
  revert arr acc. induction l as [|c l IH]; intros arr acc Hseeds Hsub Hnd.
  - cbn. now rewrite app_nil_r.
  - cbn [map clip_loop].
    assert (c ∈ arr) as Hc by (apply Hsub; now left).
    assert (distances arr (float_of_int c) <> []) as Hne.
    { destruct arr; [inversion Hc|discriminate]. }
    destruct (np_argmin_first_minimum _ Hne) as (k & -> & Hk).
    pose proof (first_minimum_bound _ _ Hk) as Hkb.
    unfold distances in Hkb. rewrite length_map in Hkb.
    destruct (lookup_lt_is_Some_2 arr k Hkb) as [c' Hc']. rewrite Hc'.
    assert (c' = c) as ->.
    { destruct (Z.eq_dec c' c) as [|Hdiff]; auto. exfalso.
      destruct Hk as (m & Hm & HA & _).
      unfold distances in Hm, HA.
      rewrite lookup_map, Hc' in Hm. cbn [option_map] in Hm.
      injection Hm as <-.
      apply list_elem_of_lookup_1 in Hc. destruct Hc as [j Hj].
      specialize (HA j (distance c (float_of_int c))).
      rewrite lookup_map, Hj in HA. specialize (HA eq_refl). cbv beta in HA.
      rewrite seed_is_nearest in HA; [discriminate| | |congruence].
      - apply Hseeds. eapply list_elem_of_lookup_2; eauto.
      - apply Hseeds. eapply list_elem_of_lookup_2; eauto. }
    rewrite IH.
    + now rewrite <- List.app_assoc.
    + intros x Hx. apply Hseeds.
      destruct replace; [exact Hx|eapply list_elem_of_delete_inv; eauto].
    + intros x Hx.
      assert (x ∈ arr) as Hxa by (apply Hsub; now right).
      destruct replace; [exact Hxa|].
      apply (elem_of_delete_other arr k c x Hc' Hxa).
      specialize (Hnd eq_refl). apply NoDup_cons in Hnd.
      destruct Hnd as [Hnotin _]. congruence.
    + intros Hr. specialize (Hnd Hr). apply NoDup_cons in Hnd. tauto.
Qed.

(** X18: inputs that already are seeds are kept.  When every candidate of
    the space is one of the seeds 1 to 16 and the inputs are the floats
    of candidates of the space (without replacement: of different
    candidates), the discretiser returns exactly these candidates, in
    input order. *)
Theorem discretizer_keeps_seed_values (seeds : list Z)
    (discrete_search_space : option (list Z)) (replace : bool) :
  let space := default SINGLE_REGION_SEARCH_SPACE discrete_search_space in
  (forall c, c ∈ space -> 1 <= c <= 16) ->
  (forall c, c ∈ seeds -> c ∈ space) ->
  (replace = false -> NoDup seeds) ->
  clip_continuous_inputs_to_discrete_search_space
    (map float_of_int seeds) discrete_search_space replace = inr seeds.
Proof.
  intros space Hrange Hsub Hnd.
  unfold clip_continuous_inputs_to_discrete_search_space.
  pose proof (clip_loop_keeps_seeds seeds replace space []) as H.
  cbn [app] in H.
  destruct discrete_search_space; apply H; auto;
    intros c Hc; specialize (Hrange c Hc);
    unfold all_seeds; cbn [In]; lia.
Qed.

Lemma discretizer_keeps_seed_values_witness :
  clip_continuous_inputs_to_discrete_search_space
    [3; 16; 1]%float None false = inr [3; 16; 1].
Proof.
  apply (discretizer_keeps_seed_values [3; 16; 1] None false).
  - intros c Hc. apply list_elem_of_In in Hc. cbn in Hc. lia.
  - intros c Hc. apply list_elem_of_In in Hc. apply list_elem_of_In.
    cbn in Hc |- *. tauto.
  - intros _. apply nodupb_NoDup. reflexivity.
Defined.
